(** * The observer's node database (cmd/observer/database)

    A shallow embedding of [db_sqlite.go]: the table [nodes], the SQL
    statements that the file declares as constants, and the Go methods of
    [DBSQLite] that run them.  The table is a finite map from the primary
    key [id] to the other columns of a row.  A nullable column is an
    [option]; an SQL condition is evaluated in SQL's three-valued logic and a
    row is selected when the condition is true (neither false nor NULL). *)

From Stdlib Require Import ZArith String Ascii List Lia DecimalString.
From Stdlib.Strings Require Import Byte.
From stdpp Require Import base option list gmap strings sorting.

Local Open Scope string_scope.
Local Open Scope Z_scope.

(** ** Go values *)

(** [NodeID] is a Go string. *)
Abbreviation NodeID := string.

(** Go's [error]: [None] is [nil], [Some msg] an error with that text. *)
Abbreviation error := (option string).

(** A Go result pair [(value, error)]. *)
Inductive result (A : Type) : Type :=
| Ok (a : A)
| Err (e : string).
Arguments Ok {A} a.
Arguments Err {A} e.

(** [fmt.Errorf(prefix + ": %w", err)]. *)
Definition wrap_err (pfx : string) (e : string) : string := pfx +:+ ": " +:+ e.

(** The ids a finder hands back; a failed call hands back none. *)
Definition ids_of (r : result (list NodeID)) : list NodeID :=
  match r with Ok ids => ids | Err _ => [] end.

(** *** Fixed-width integers *)

Definition int64_min : Z := - 2 ^ 63.
Definition int64_max : Z := 2 ^ 63 - 1.
Definition int32_min : Z := - 2 ^ 31.
Definition int32_max : Z := 2 ^ 31 - 1.

(** Conversion to [int64] keeps the low 64 bits. *)
Definition to_int64 (z : Z) : Z := (z + 2 ^ 63) mod 2 ^ 64 - 2 ^ 63.
Definition to_uint (z : Z) : Z := z mod 2 ^ 64.

Definition is_int64 (z : Z) : Prop := int64_min <= z <= int64_max.
(** A Go [uint] that database/sql hands to the engine unchanged: the
    conversion to [int64] is the identity below [2^63]. *)
Definition uint_fits (z : Z) : Prop := 0 <= z <= int64_max.

(** *** Time *)

(** A [time.Time] is counted in nanoseconds since the Unix epoch, a
    [time.Duration] is an [int64] count of nanoseconds. *)
Abbreviation GoTime := Z.
Abbreviation Duration := Z.

Definition second : Z := 1000000000.

(** [t.Unix()]: whole seconds since the epoch, rounded down. *)
Definition Unix (t : GoTime) : Z := t / second.
(** [time.Unix(sec, 0)]. *)
Definition time_Unix (sec : Z) : GoTime := sec * second.
(** [t.Add(d)]. *)
Definition Add (t : GoTime) (d : Duration) : GoTime := t + d.
(** Unary minus on a [Duration] wraps around like any [int64]. *)
Definition neg_duration (d : Duration) : Duration := to_int64 (- d).

(** ** SQL values and conditions *)

(** The truth value of an SQL condition: [None] is NULL. *)
Abbreviation sqlbool := (option bool).

Definition sql_or (a b : sqlbool) : sqlbool :=
  match a, b with
  | Some true, _ | _, Some true => Some true
  | Some false, Some false => Some false
  | _, _ => None
  end.

Definition sql_and (a b : sqlbool) : sqlbool :=
  match a, b with
  | Some false, _ | _, Some false => Some false
  | Some true, Some true => Some true
  | _, _ => None
  end.

Definition sql_is_null {A} (v : option A) : sqlbool :=
  Some (match v with None => true | Some _ => false end).

Definition sql_is_not_null {A} (v : option A) : sqlbool :=
  Some (match v with None => false | Some _ => true end).

(** Comparisons are NULL as soon as one side is. *)
Definition sql_lt (a b : option Z) : sqlbool :=
  match a, b with Some x, Some y => Some (x <? y) | _, _ => None end.

Definition sql_le (a b : option Z) : sqlbool :=
  match a, b with Some x, Some y => Some (x <=? y) | _, _ => None end.

Definition sql_eq_int (a b : option Z) : sqlbool :=
  match a, b with Some x, Some y => Some (x =? y) | _, _ => None end.

Definition sql_eq_text (a b : option string) : sqlbool :=
  match a, b with Some x, Some y => Some (String.eqb x y) | _, _ => None end.

(** A WHERE clause keeps the rows on which it is true. *)
Definition sql_true (c : sqlbool) : bool :=
  match c with Some true => true | _ => false end.

(** The literal [TRUE] is the integer 1, and a Go [bool] is bound as 1 or 0. *)
Definition sql_TRUE : Z := 1.
Definition sql_of_bool (b : bool) : Z := if b then 1 else 0.

(** [LIMIT n]: the first [n] rows; a negative [n] means no limit. *)
Definition sql_limit {A} (n : Z) (l : list A) : list A :=
  if n <? 0 then l else take (Z.to_nat n) l.

(** [ORDER BY] on a nullable integer column, ascending: NULL sorts before
    every value. *)
Definition nulls_first_le (a b : option Z) : Prop :=
  match a, b with
  | None, _ => True
  | Some _, None => False
  | Some x, Some y => x <= y
  end.

#[global] Instance nulls_first_le_dec a b : Decision (nulls_first_le a b).
Proof. destruct a, b; simpl; apply _. Defined.

#[global] Instance nulls_first_le_total : Total nulls_first_le.
Proof. intros [x|] [y|]; simpl; auto; lia. Qed.

#[global] Instance nulls_first_le_trans : Transitive nulls_first_le.
Proof. intros [x|] [y|] [z|]; simpl; auto; try lia; tauto. Qed.

(** ** The table [nodes] *)

(** The columns of a row besides the primary key [id], as [sqlCreateSchema]
    declares them.  [addr_updated], [ping_try] and [handshake_try] are
    NOT NULL. *)
Record Node : Type := mkNode {
  ip : option string;
  port_disc : option Z;
  port_rlpx : option Z;
  ip_v6 : option string;
  ip_v6_port_disc : option Z;
  ip_v6_port_rlpx : option Z;
  addr_updated : Z;
  ping_try : Z;
  compat_fork : option Z;
  compat_fork_updated : option Z;
  client_id : option string;
  handshake_err : option string;
  handshake_try : Z;
  handshake_updated : option Z;
  neighbor_keys : option string;
  taken_last : option Z
}.

(** The content of the table, keyed by [id]. *)
Abbreviation Table := (gmap string Node).

(** *** Row updates

    One function per [SET] list of the statements below. *)

(** [SET ip = .., port_disc = .., port_rlpx = .., ip_v6 = ..,
    ip_v6_port_disc = .., ip_v6_port_rlpx = .., addr_updated = ..] *)
Definition set_addr (a : option string) (pd pr : option Z)
    (a6 : option string) (pd6 pr6 : option Z) (updated : Z) (r : Node) : Node :=
  {| ip := a; port_disc := pd; port_rlpx := pr;
     ip_v6 := a6; ip_v6_port_disc := pd6; ip_v6_port_rlpx := pr6;
     addr_updated := updated;
     ping_try := ping_try r;
     compat_fork := compat_fork r;
     compat_fork_updated := compat_fork_updated r;
     client_id := client_id r;
     handshake_err := handshake_err r;
     handshake_try := handshake_try r;
     handshake_updated := handshake_updated r;
     neighbor_keys := neighbor_keys r;
     taken_last := taken_last r |}.

(** The row an [INSERT] that names only the address columns creates: the
    other columns take their defaults, 0 for the two counters and NULL
    elsewhere. *)
Definition inserted_row (a : option string) (pd pr : option Z)
    (a6 : option string) (pd6 pr6 : option Z) (updated : Z) : Node :=
  {| ip := a; port_disc := pd; port_rlpx := pr;
     ip_v6 := a6; ip_v6_port_disc := pd6; ip_v6_port_rlpx := pr6;
     addr_updated := updated;
     ping_try := 0;
     compat_fork := None;
     compat_fork_updated := None;
     client_id := None;
     handshake_err := None;
     handshake_try := 0;
     handshake_updated := None;
     neighbor_keys := None;
     taken_last := None |}.

(** [SET ping_try = v] *)
Definition set_ping_try (v : Z) (r : Node) : Node :=
  {| ip := ip r; port_disc := port_disc r; port_rlpx := port_rlpx r;
     ip_v6 := ip_v6 r; ip_v6_port_disc := ip_v6_port_disc r;
     ip_v6_port_rlpx := ip_v6_port_rlpx r;
     addr_updated := addr_updated r;
     ping_try := v;
     compat_fork := compat_fork r;
     compat_fork_updated := compat_fork_updated r;
     client_id := client_id r;
     handshake_err := handshake_err r;
     handshake_try := handshake_try r;
     handshake_updated := handshake_updated r;
     neighbor_keys := neighbor_keys r;
     taken_last := taken_last r |}.

(** [SET client_id = .., handshake_err = .., handshake_try = ..,
    handshake_updated = ..] ([client_id] is written by [sqlUpdateClientID]
    only). *)
Definition set_handshake (cid : option string) (herr : option string)
    (htry : Z) (updated : option Z) (r : Node) : Node :=
  {| ip := ip r; port_disc := port_disc r; port_rlpx := port_rlpx r;
     ip_v6 := ip_v6 r; ip_v6_port_disc := ip_v6_port_disc r;
     ip_v6_port_rlpx := ip_v6_port_rlpx r;
     addr_updated := addr_updated r;
     ping_try := ping_try r;
     compat_fork := compat_fork r;
     compat_fork_updated := compat_fork_updated r;
     client_id := cid;
     handshake_err := herr;
     handshake_try := htry;
     handshake_updated := updated;
     neighbor_keys := neighbor_keys r;
     taken_last := taken_last r |}.

(** [SET compat_fork = .., compat_fork_updated = ..] *)
Definition set_compat_fork (v updated : option Z) (r : Node) : Node :=
  {| ip := ip r; port_disc := port_disc r; port_rlpx := port_rlpx r;
     ip_v6 := ip_v6 r; ip_v6_port_disc := ip_v6_port_disc r;
     ip_v6_port_rlpx := ip_v6_port_rlpx r;
     addr_updated := addr_updated r;
     ping_try := ping_try r;
     compat_fork := v;
     compat_fork_updated := updated;
     client_id := client_id r;
     handshake_err := handshake_err r;
     handshake_try := handshake_try r;
     handshake_updated := handshake_updated r;
     neighbor_keys := neighbor_keys r;
     taken_last := taken_last r |}.

(** [SET neighbor_keys = ..] *)
Definition set_neighbor_keys (v : option string) (r : Node) : Node :=
  {| ip := ip r; port_disc := port_disc r; port_rlpx := port_rlpx r;
     ip_v6 := ip_v6 r; ip_v6_port_disc := ip_v6_port_disc r;
     ip_v6_port_rlpx := ip_v6_port_rlpx r;
     addr_updated := addr_updated r;
     ping_try := ping_try r;
     compat_fork := compat_fork r;
     compat_fork_updated := compat_fork_updated r;
     client_id := client_id r;
     handshake_err := handshake_err r;
     handshake_try := handshake_try r;
     handshake_updated := handshake_updated r;
     neighbor_keys := v;
     taken_last := taken_last r |}.

(** [SET taken_last = ..] *)
Definition set_taken_last (v : option Z) (r : Node) : Node :=
  {| ip := ip r; port_disc := port_disc r; port_rlpx := port_rlpx r;
     ip_v6 := ip_v6 r; ip_v6_port_disc := ip_v6_port_disc r;
     ip_v6_port_rlpx := ip_v6_port_rlpx r;
     addr_updated := addr_updated r;
     ping_try := ping_try r;
     compat_fork := compat_fork r;
     compat_fork_updated := compat_fork_updated r;
     client_id := client_id r;
     handshake_err := handshake_err r;
     handshake_try := handshake_try r;
     handshake_updated := handshake_updated r;
     neighbor_keys := neighbor_keys r;
     taken_last := v |}.

(** ** The SQL statements

    An [UPDATE .. WHERE id = ?] changes the row of that id when there is one
    and nothing otherwise; [UPDATE .. WHERE id IN (..)] visits every row and
    changes those whose id is listed.  The integer columns hold 64-bit
    values; [ping_try + 1] and [handshake_try + 1] are plain additions here,
    the counters being far from [2^63]. *)

Definition update_where_id (f : Node → Node) (id : NodeID) (t : Table) : Table :=
  alter f id t.

Definition update_where_id_in (f : Node → Node) (ids : list NodeID) (t : Table) : Table :=
  map_imap (λ k r, Some (if bool_decide (k ∈ ids) then f r else r)) t.

(** [INSERT INTO nodes(id, ip, ..) VALUES (..) ON CONFLICT(id) DO UPDATE SET
    ip = excluded.ip, ..] *)
Definition sqlUpsertNodeAddr (id : NodeID) (a : option string) (pd pr : option Z)
    (a6 : option string) (pd6 pr6 : option Z) (updated : Z) (t : Table) : Table :=
  match t !! id with
  | Some r => <[id := set_addr a pd pr a6 pd6 pr6 updated r]> t
  | None => <[id := inserted_row a pd pr a6 pd6 pr6 updated]> t
  end.


(** [UPDATE nodes SET ping_try = 0 WHERE id = ?] *)
Definition sqlResetPingError (id : NodeID) : Table → Table :=
  update_where_id (set_ping_try 0) id.

(** [UPDATE nodes SET ping_try = nodes.ping_try + 1 WHERE id = ?] *)
Definition sqlUpdatePingError (id : NodeID) : Table → Table :=
  update_where_id (λ r, set_ping_try (ping_try r + 1) r) id.

(** [UPDATE nodes SET client_id = ?, handshake_err = NULL, handshake_try = 0,
    handshake_updated = ? WHERE id = ?] *)
Definition sqlUpdateClientID (clientID : string) (updated : Z) (id : NodeID)
    : Table → Table :=
  update_where_id (set_handshake (Some clientID) None 0 (Some updated)) id.

(** [UPDATE nodes SET handshake_err = ?, handshake_try = nodes.handshake_try + 1,
    handshake_updated = ? WHERE id = ?] *)
Definition sqlUpdateHandshakeError (handshakeErr : string) (updated : Z) (id : NodeID)
    : Table → Table :=
  update_where_id
    (λ r, set_handshake (client_id r) (Some handshakeErr) (handshake_try r + 1)
            (Some updated) r) id.

(** [SELECT handshake_err, handshake_try, handshake_updated FROM nodes
    WHERE id = ?] *)
Definition sqlFindHandshakeLastTry (id : NodeID) (t : Table)
    : option (option string * Z * option Z) :=
  r ← t !! id;
  Some (handshake_err r, handshake_try r, handshake_updated r).

(** [UPDATE nodes SET handshake_updated = ?, handshake_err = 'taken'
    WHERE id IN (..)] *)
Definition sqlMarkTakenHandshakeCandidates (updated : Z) (ids : list NodeID)
    : Table → Table :=
  update_where_id_in
    (λ r, set_handshake (client_id r) (Some "taken") (handshake_try r) (Some updated) r)
    ids.

(** [UPDATE nodes SET compat_fork = ?, compat_fork_updated = ? WHERE id = ?] *)
Definition sqlUpdateForkCompatibility (isCompatFork : Z) (updated : Z) (id : NodeID)
    : Table → Table :=
  update_where_id (set_compat_fork (Some isCompatFork) (Some updated)) id.

(** [UPDATE nodes SET neighbor_keys = ? WHERE id = ?] *)
Definition sqlUpdateNeighborBucketKeys (keysStr : string) (id : NodeID)
    : Table → Table :=
  update_where_id (set_neighbor_keys (Some keysStr)) id.

(** [SELECT neighbor_keys FROM nodes WHERE id = ?] *)
Definition sqlFindNeighborBucketKeys (id : NodeID) (t : Table)
    : option (option string) :=
  r ← t !! id; Some (neighbor_keys r).

(** [UPDATE nodes SET taken_last = ? WHERE id IN (..)] *)
Definition sqlMarkTakenNodes (takenLast : Z) (ids : list NodeID) : Table → Table :=
  update_where_id_in (set_taken_last (Some takenLast)) ids.

(** *** The two candidate queries *)

(** The rows in the order of [ORDER BY key]. *)
Definition order_by (key : Node → option Z) : relation (NodeID * Node) :=
  λ a b, nulls_first_le (key a.2) (key b.2).

#[global] Instance order_by_dec key a b : Decision (order_by key a b).
Proof. unfold order_by. apply _. Defined.

#[global] Instance order_by_total key : Total (order_by key).
Proof. intros a b. apply nulls_first_le_total. Qed.

#[global] Instance order_by_trans key : Transitive (order_by key).
Proof. intros a b c. apply nulls_first_le_trans. Qed.

(** The rows that a query selects, in its order, before the limit. *)
Definition selected_rows (cond : Node → sqlbool) (key : Node → option Z) (t : Table)
    : list (NodeID * Node) :=
  merge_sort (order_by key) (filter (λ kr, sql_true (cond kr.2)) (map_to_list t)).

(** [SELECT id FROM nodes WHERE cond ORDER BY key LIMIT n].  Rows with the
    same key come in the order of the sort below, which SQL leaves open. *)
Definition select_ids (cond : Node → sqlbool) (key : Node → option Z) (n : Z)
    (t : Table) : list NodeID :=
  sql_limit n (selected_rows cond key t).*1.

(** [(compat_fork == TRUE) OR (compat_fork IS NULL)], in both queries. *)
Definition cond_compat_fork (r : Node) : sqlbool :=
  sql_or (sql_eq_int (compat_fork r) (Some sql_TRUE))
         (sql_is_null (compat_fork r)).

(** [(handshake_try <= ?) OR (handshake_err = ?)], in both queries. *)
Definition cond_handshake_try (maxHandshakeTries : Z) (transientErr : string)
    (r : Node) : sqlbool :=
  sql_or (sql_le (Some (handshake_try r)) (Some maxHandshakeTries))
         (sql_eq_text (handshake_err r) (Some transientErr)).

(** [(handshake_updated IS NULL)
     OR ((handshake_updated < ?) AND (handshake_err IS NULL))
     OR ((handshake_updated < ?) AND (handshake_err IS NOT NULL))] *)
Definition cond_handshake_unused (updatedOKBefore updatedErrBefore : Z)
    (r : Node) : sqlbool :=
  sql_or
    (sql_or
       (sql_is_null (handshake_updated r))
       (sql_and (sql_lt (handshake_updated r) (Some updatedOKBefore))
                (sql_is_null (handshake_err r))))
    (sql_and (sql_lt (handshake_updated r) (Some updatedErrBefore))
             (sql_is_not_null (handshake_err r))).

(** [(taken_last IS NULL) OR (taken_last < ?)] *)
Definition cond_unused (takenLastBefore : Z) (r : Node) : sqlbool :=
  sql_or (sql_is_null (taken_last r))
         (sql_lt (taken_last r) (Some takenLastBefore)).

(** The [WHERE] clause of [sqlFindHandshakeCandidates]:
[[
  ((handshake_updated IS NULL)
     OR ((handshake_updated < ?) AND (handshake_err IS NULL))
     OR ((handshake_updated < ?) AND (handshake_err IS NOT NULL)))
  AND ((compat_fork == TRUE) OR (compat_fork IS NULL))
  AND ((handshake_try <= ?) OR (handshake_err = ?))
]] *)
Definition whereFindHandshakeCandidates
    (updatedOKBefore updatedErrBefore maxHandshakeTries : Z) (transientErr : string)
    (r : Node) : sqlbool :=
  sql_and
    (sql_and (cond_handshake_unused updatedOKBefore updatedErrBefore r)
             (cond_compat_fork r))
    (cond_handshake_try maxHandshakeTries transientErr r).

(** [SELECT id FROM nodes WHERE .. ORDER BY handshake_updated LIMIT ?] *)
Definition sqlFindHandshakeCandidates
    (updatedOKBefore updatedErrBefore maxHandshakeTries : Z) (transientErr : string)
    (limit : Z) : Table → list NodeID :=
  select_ids
    (whereFindHandshakeCandidates updatedOKBefore updatedErrBefore
       maxHandshakeTries transientErr)
    handshake_updated limit.

(** The [WHERE] clause of [sqlFindCandidates]:
[[
  ((taken_last IS NULL) OR (taken_last < ?))
  AND ((compat_fork == TRUE) OR (compat_fork IS NULL))
  AND (ping_try <= ?)
  AND ((handshake_try <= ?) OR (handshake_err = ?))
]] *)
Definition whereFindCandidates
    (takenLastBefore maxPingTries maxHandshakeTries : Z) (transientErr : string)
    (r : Node) : sqlbool :=
  sql_and
    (sql_and
       (sql_and (cond_unused takenLastBefore r) (cond_compat_fork r))
       (sql_le (Some (ping_try r)) (Some maxPingTries)))
    (cond_handshake_try maxHandshakeTries transientErr r).

(** [SELECT id FROM nodes WHERE .. ORDER BY taken_last LIMIT ?] *)
Definition sqlFindCandidates
    (takenLastBefore maxPingTries maxHandshakeTries : Z) (transientErr : string)
    (limit : Z) : Table → list NodeID :=
  select_ids
    (whereFindCandidates takenLastBefore maxPingTries maxHandshakeTries transientErr)
    taken_last limit.

(** ** database/sql as the store sees it *)

(** What the caller's context and the storage engine answer to the calls one
    operation makes: [None] lets the call through, [Some msg] makes it fail
    with that error (the context was cancelled or timed out, the engine
    reported [SQLITE_BUSY], ...).  There is one field per kind of call,
    since no operation makes two calls of the same kind. *)
Record Context : Type := mkContext {
  ctx_begin : error;   (* db.BeginTx *)
  ctx_exec : error;    (* db.ExecContext *)
  ctx_query : error;   (* db.QueryContext, db.QueryRowContext with row.Scan *)
  ctx_rows : error;    (* cursor.Err, after the rows were read *)
  ctx_commit : error   (* tx.Commit *)
}.

(** A context under which every call goes through. *)
Definition no_fault : Context :=
  {| ctx_begin := None; ctx_exec := None; ctx_query := None; ctx_rows := None;
     ctx_commit := None |}.

(** [db.ExecContext(ctx, stmt, args...)]: a statement sent through the
    database handle runs on its own and is committed when it returns; a
    failed statement changes nothing. *)
Definition ExecContext (ctx : Context) (stmt : Table → Table) (db : Table)
    : error * Table :=
  match ctx_exec ctx with
  | Some e => (Some e, db)
  | None => (None, stmt db)
  end.

(** [db.QueryContext(ctx, query, args...)] followed by the loop over the
    cursor and [cursor.Err()]. *)
Definition QueryContext {R} (ctx : Context) (query : Table → R) (db : Table)
    : result R :=
  match ctx_query ctx with
  | Some e => Err e
  | None => Ok (query db)
  end.

(** [db.QueryRowContext(ctx, query, args...)]: [Ok None] stands for
    [sql.ErrNoRows]. *)
Definition QueryRowContext {R} (ctx : Context) (query : Table → option R) (db : Table)
    : result (option R) :=
  match ctx_query ctx with
  | Some e => Err e
  | None => Ok (query db)
  end.

(** A transaction handle.  Statements sent through the handle ([tx.Exec..],
    [tx.Query..]) would be staged in it and reach the table on [Commit];
    statements sent through the database handle are not part of it. *)
Record Tx : Type := mkTx { tx_staged : list (Table → Table) }.

(** [db.BeginTx(ctx, nil)] *)
Definition BeginTx (ctx : Context) : result Tx :=
  match ctx_begin ctx with
  | Some e => Err e
  | None => Ok {| tx_staged := [] |}
  end.

(** [tx.Commit()] *)
Definition Commit (ctx : Context) (tx : Tx) (db : Table) : error * Table :=
  match ctx_commit ctx with
  | Some e => (Some e, db)
  | None => (None, foldl (λ t stmt, stmt t) db (tx_staged tx))
  end.

(** [tx.Rollback()] drops what the handle staged. *)
Definition Rollback (tx : Tx) (db : Table) : Table := db.

(** Arguments of Go type [uint] reach the engine as [int64]. *)
Definition bind_uint (v : Z) : Z := to_int64 v.

(** [Scan] into a [sql.NullInt32]: NULL is not valid, an integer outside
    [int32] is an error. *)
Definition scan_NullInt32 (v : option Z) : result (option Z) :=
  match v with
  | None => Ok None
  | Some z =>
      if (int32_min <=? z) && (z <=? int32_max) then Ok (Some z)
      else Err "converting driver.Value type int64 to a int32: value out of range"
  end.

#[global] Instance result_bind : MBind result :=
  λ A B f r, match r with Ok a => f a | Err e => Err e end.

(** ** Strings *)

(** [strings.Join(elems, sep)] *)
Fixpoint Join (elems : list string) (sep : string) : string :=
  match elems with
  | [] => ""
  | [x] => x
  | x :: rest => x +:+ sep +:+ Join rest sep
  end.

(** [strings.Split(s, sep)] for a separator of one byte, which is how the
    store calls it: the pieces of [s] between the separators, in order. *)
Fixpoint Split (s : string) (sep : ascii) : list string :=
  match s with
  | "" => [""]
  | String c s' =>
      if Ascii.eqb c sep then "" :: Split s' sep
      else match Split s' sep with
           | piece :: pieces => String c piece :: pieces
           | [] => [String c ""]
           end
  end.

(** ** The values of db.go *)

(** [net.IP] is a byte slice; [None] is the nil slice. *)
Abbreviation IP_t := (option (list byte)).

Record NodeAddr1 : Type := mkNodeAddr1 {
  IP : IP_t;
  PortDisc : Z;    (* uint16 *)
  PortRLPx : Z     (* uint16 *)
}.

(** [NodeAddr] embeds one [NodeAddr1] (its fields are those of the
    address itself) and holds another one as [IPv6]. *)
Record NodeAddr : Type := mkNodeAddr {
  embedded : NodeAddr1;
  IPv6 : NodeAddr1
}.

(** Modelled from the spec: the declaration of [HandshakeTry], the struct
    that [FindHandshakeLastTry] fills, is missing from the files; the spec
    gives its content as "the current (hasError, tryCount, lastUpdated)
    triple". *)
Record HandshakeTry : Type := mkHandshakeTry {
  hasError : bool;
  tryCount : Z;          (* uint *)
  lastUpdated : GoTime
}.

(** ** The methods of [DBSQLite]

    A method takes the content of the table as [db] and, when it writes,
    returns the new content next to its Go result.  Where the Go code reads
    the clock, the method takes the reading as an argument, one per call of
    [time.Now()], in the order of the calls. *)

(** The loop [for cursor.Next() { .. nodes = append(nodes, NodeID(id)) }]. *)
Definition collect (rows : list string) : list NodeID :=
  foldl (λ (nodes : list NodeID) id, (nodes ++ [id])%list) [] rows.

(** The pointer passed for a port: nil unless the IP of its stack is present
    and the port is not 0. *)
Definition port_arg (ip : option string) (port : Z) : option Z :=
  match ip with
  | Some _ => if port =? 0 then None else Some port
  | None => None
  end.

Section Address.
(** [net.IP.String] and [net.ParseIP] belong to Go's library; the store only
    passes their results on.  [ParseIP] returns [None] for Go's nil. *)
Variable IP_String : list byte → string.
Variable ParseIP : string → IP_t.

Definition UpsertNodeAddr (db : Table) (ctx : Context) (now : GoTime)
    (id : NodeID) (addr : NodeAddr) : error * Table :=
  let ip := IP_String <$> IP (embedded addr) in
  let ipV6 := IP_String <$> IP (IPv6 addr) in
  let portDisc := port_arg ip (PortDisc (embedded addr)) in
  let ipV6PortDisc := port_arg ipV6 (PortDisc (IPv6 addr)) in
  let portRLPx := port_arg ip (PortRLPx (embedded addr)) in
  let ipV6PortRLPx := port_arg ipV6 (PortRLPx (IPv6 addr)) in
  let updated := Unix now in
  match ExecContext ctx
          (sqlUpsertNodeAddr id ip portDisc portRLPx
             ipV6 ipV6PortDisc ipV6PortRLPx updated) db with
  | (Some e, db') => (Some (wrap_err "failed to upsert a node address" e), db')
  | (None, db') => (None, db')
  end.


End Address.

Definition ResetPingError (db : Table) (ctx : Context) (id : NodeID) : error * Table :=
  match ExecContext ctx (sqlResetPingError id) db with
  | (Some e, db') => (Some (wrap_err "ResetPingError failed" e), db')
  | (None, db') => (None, db')
  end.

Definition UpdatePingError (db : Table) (ctx : Context) (id : NodeID) : error * Table :=
  match ExecContext ctx (sqlUpdatePingError id) db with
  | (Some e, db') => (Some (wrap_err "UpdatePingError failed" e), db')
  | (None, db') => (None, db')
  end.

Definition UpdateClientID (db : Table) (ctx : Context) (now : GoTime)
    (id : NodeID) (clientID : string) : error * Table :=
  let updated := Unix now in
  match ExecContext ctx (sqlUpdateClientID clientID updated id) db with
  | (Some e, db') => (Some (wrap_err "UpdateClientID failed to update a node" e), db')
  | (None, db') => (None, db')
  end.

Definition UpdateHandshakeError (db : Table) (ctx : Context) (now : GoTime)
    (id : NodeID) (handshakeErr : string) : error * Table :=
  let updated := Unix now in
  match ExecContext ctx (sqlUpdateHandshakeError handshakeErr updated id) db with
  | (Some e, db') =>
      (Some (wrap_err "UpdateHandshakeError failed to update a node" e), db')
  | (None, db') => (None, db')
  end.

Definition FindHandshakeLastTry (db : Table) (ctx : Context) (id : NodeID)
    : result (option HandshakeTry) :=
  match QueryRowContext ctx (sqlFindHandshakeLastTry id) db with
  | Err e => Err (wrap_err "FindHandshakeLastTry failed" e)
  | Ok None => Ok None
  | Ok (Some (handshakeErr, tryNum, updatedTimestamp)) =>
    match scan_NullInt32 (Some tryNum) with
    | Err e => Err (wrap_err "FindHandshakeLastTry failed" e)
    | Ok tryNum =>
      (* if never we tried to handshake then the update time is NULL *)
      match updatedTimestamp with
      | None => Ok None
      | Some ts =>
          Ok (Some {| hasError := bool_decide (is_Some handshakeErr);
                      tryCount := to_uint (default 0 tryNum);
                      lastUpdated := time_Unix ts |})
      end
    end
  end.

Definition FindHandshakeCandidates (db : Table) (ctx : Context)
    (now1 now2 : GoTime)
    (minUnusedOKDuration minUnusedErrDuration : Duration)
    (maxHandshakeTries : Z) (transientErr : string) (limit : Z)
    : result (list NodeID) :=
  let updatedOKBefore := Unix (Add now1 (neg_duration minUnusedOKDuration)) in
  let updatedErrBefore := Unix (Add now2 (neg_duration minUnusedErrDuration)) in
  match QueryContext ctx
          (sqlFindHandshakeCandidates updatedOKBefore updatedErrBefore
             (bind_uint maxHandshakeTries) transientErr (bind_uint limit)) db with
  | Err e => Err (wrap_err "FindHandshakeCandidates failed to query candidates" e)
  | Ok cursor =>
    let nodes := collect cursor in
    match ctx_rows ctx with
    | Some e =>
        Err (wrap_err "FindHandshakeCandidates failed to iterate over candidates" e)
    | None => Ok nodes
    end
  end.

Definition MarkTakenHandshakeCandidates (db : Table) (ctx : Context) (now : GoTime)
    (ids : list NodeID) : error * Table :=
  match ids with
  | [] => (None, db)
  | _ =>
    let takenLast := Unix now in
    match ExecContext ctx (sqlMarkTakenHandshakeCandidates takenLast ids) db with
    | (Some e, db') => (Some (wrap_err "failed to mark taken handshake candidates" e), db')
    | (None, db') => (None, db')
    end
  end.

Definition TakeHandshakeCandidates (db : Table) (ctx : Context)
    (nowFind1 nowFind2 nowMark : GoTime)
    (minUnusedOKDuration minUnusedErrDuration : Duration)
    (maxHandshakeTries : Z) (transientErr : string) (limit : Z)
    : result (list NodeID) * Table :=
  match BeginTx ctx with
  | Err e =>
      (Err (wrap_err "TakeHandshakeCandidates failed to start transaction" e), db)
  | Ok tx =>
    match FindHandshakeCandidates db ctx nowFind1 nowFind2
            minUnusedOKDuration minUnusedErrDuration
            maxHandshakeTries transientErr limit with
    | Err e => (Err e, Rollback tx db)
    | Ok ids =>
      match MarkTakenHandshakeCandidates db ctx nowMark ids with
      | (Some e, db1) => (Err e, Rollback tx db1)
      | (None, db1) =>
        match Commit ctx tx db1 with
        | (Some e, db2) =>
            (Err (wrap_err "TakeHandshakeCandidates failed to commit transaction" e),
             db2)
        | (None, db2) => (Ok ids, db2)
        end
      end
    end
  end.

Definition UpdateForkCompatibility (db : Table) (ctx : Context) (now : GoTime)
    (id : NodeID) (isCompatFork : bool) : error * Table :=
  let updated := Unix now in
  match ExecContext ctx
          (sqlUpdateForkCompatibility (sql_of_bool isCompatFork) updated id) db with
  | (Some e, db') =>
      (Some (wrap_err "UpdateForkCompatibility failed to update a node" e), db')
  | (None, db') => (None, db')
  end.

Definition UpdateNeighborBucketKeys (db : Table) (ctx : Context)
    (id : NodeID) (keys : list string) : error * Table :=
  let keysStr := Join keys "," in
  match ExecContext ctx (sqlUpdateNeighborBucketKeys keysStr id) db with
  | (Some e, db') =>
      (Some (wrap_err "UpdateNeighborBucketKeys failed to update a node" e), db')
  | (None, db') => (None, db')
  end.

(** The result is [None] for Go's nil slice. *)
Definition FindNeighborBucketKeys (db : Table) (ctx : Context) (id : NodeID)
    : result (option (list string)) :=
  match QueryRowContext ctx (sqlFindNeighborBucketKeys id) db with
  | Err e => Err (wrap_err "FindNeighborBucketKeys failed" e)
  | Ok None => Ok None
  | Ok (Some None) => Ok None
  | Ok (Some (Some keysStr)) => Ok (Some (Split keysStr ","))
  end.

Definition FindCandidates (db : Table) (ctx : Context) (now : GoTime)
    (minUnusedDuration : Duration)
    (maxPingTries maxHandshakeTries : Z) (transientHandshakeErr : string) (limit : Z)
    : result (list NodeID) :=
  let takenLastBefore := Unix (Add now (neg_duration minUnusedDuration)) in
  match QueryContext ctx
          (sqlFindCandidates takenLastBefore (bind_uint maxPingTries)
             (bind_uint maxHandshakeTries) transientHandshakeErr (bind_uint limit))
          db with
  | Err e => Err (wrap_err "FindCandidates failed to query candidates" e)
  | Ok cursor =>
    let nodes := collect cursor in
    match ctx_rows ctx with
    | Some e => Err (wrap_err "FindCandidates failed to iterate over candidates" e)
    | None => Ok nodes
    end
  end.

Definition MarkTakenNodes (db : Table) (ctx : Context) (now : GoTime)
    (ids : list NodeID) : error * Table :=
  match ids with
  | [] => (None, db)
  | _ =>
    let takenLast := Unix now in
    match ExecContext ctx (sqlMarkTakenNodes takenLast ids) db with
    | (Some e, db') => (Some (wrap_err "failed to mark taken nodes" e), db')
    | (None, db') => (None, db')
    end
  end.

Definition TakeCandidates (db : Table) (ctx : Context) (nowFind nowMark : GoTime)
    (minUnusedDuration : Duration)
    (maxPingTries maxHandshakeTries : Z) (transientHandshakeErr : string) (limit : Z)
    : result (list NodeID) * Table :=
  match BeginTx ctx with
  | Err e => (Err (wrap_err "TakeCandidates failed to start transaction" e), db)
  | Ok tx =>
    match FindCandidates db ctx nowFind minUnusedDuration
            maxPingTries maxHandshakeTries transientHandshakeErr limit with
    | Err e => (Err e, Rollback tx db)
    | Ok ids =>
      match MarkTakenNodes db ctx nowMark ids with
      | (Some e, db1) => (Err e, Rollback tx db1)
      | (None, db1) =>
        match Commit ctx tx db1 with
        | (Some e, db2) =>
            (Err (wrap_err "TakeCandidates failed to commit transaction" e), db2)
        | (None, db2) => (Ok ids, db2)
        end
      end
    end
  end.

(** ** Calls that run side by side

    The methods above take the table and give it back, which is one call
    running alone.  The store is shared by goroutines, and what one call
    does between two of its own statements is decided by the others.  A
    [Call] cuts a method at its database/sql calls: each [Step] is one such
    call, atomic on the table, with its effect and what the method goes on
    to do given the table it saw. *)
Inductive Call (A : Type) : Type :=
| Done (a : A)
| Step (effect : Table → Table) (next : Table → Call A).
Arguments Done {A} a.
Arguments Step {A} effect next.

(** One call running alone. *)
Fixpoint run {A} (c : Call A) (db : Table) : A * Table :=
  match c with
  | Done a => (a, db)
  | Step effect next => run (next db) (effect db)
  end.

(** Two calls on one table: [sched] says whose step comes next ([true] for
    the first call); when it ends, the first call runs to its end, then the
    second. *)
Fixpoint interleave {A B} (sched : list bool) (a : Call A) (b : Call B)
    (db : Table) : A * B * Table :=
  match sched with
  | [] =>
      let ra := run a db in
      let rb := run b ra.2 in
      (ra.1, rb.1, rb.2)
  | true :: sched' =>
      match a with
      | Done _ => interleave sched' a b db
      | Step effect next => interleave sched' (next db) b (effect db)
      end
  | false :: sched' =>
      match b with
      | Done _ => interleave sched' a b db
      | Step effect next => interleave sched' a (next db) (effect db)
      end
  end.

(** [TakeCandidates] cut at its four calls: [BeginTx], the query of
    [FindCandidates], the statement of [MarkTakenNodes], [Commit] (or
    [Rollback]). *)
Definition TakeCandidates_steps (ctx : Context) (nowFind nowMark : GoTime)
    (minUnusedDuration : Duration)
    (maxPingTries maxHandshakeTries : Z) (transientHandshakeErr : string) (limit : Z)
    : Call (result (list NodeID)) :=
  Step (λ db, db) (λ _,
    match BeginTx ctx with
    | Err e => Done (Err (wrap_err "TakeCandidates failed to start transaction" e))
    | Ok tx =>
      Step (λ db, db) (λ db,
        match FindCandidates db ctx nowFind minUnusedDuration
                maxPingTries maxHandshakeTries transientHandshakeErr limit with
        | Err e => Step (Rollback tx) (λ _, Done (Err e))
        | Ok ids =>
          Step (λ db, (MarkTakenNodes db ctx nowMark ids).2) (λ db,
            match (MarkTakenNodes db ctx nowMark ids).1 with
            | Some e => Step (Rollback tx) (λ _, Done (Err e))
            | None =>
              Step (λ db, (Commit ctx tx db).2) (λ db,
                match (Commit ctx tx db).1 with
                | Some e =>
                    Done (Err (wrap_err
                                 "TakeCandidates failed to commit transaction" e))
                | None => Done (Ok ids)
                end)
            end)
        end)
    end).

(** ** The conflict classifier and the statistics *)

(** [strings.HasPrefix(s, prefix)] *)
Fixpoint HasPrefix (s prefix : string) : bool :=
  match prefix with
  | "" => true
  | String p prefix' =>
      match s with
      | "" => false
      | String c s' => Ascii.eqb c p && HasPrefix s' prefix'
      end
  end.

(** [strings.Contains(s, substr)]: [substr] starts at some position of
    [s]. *)
Fixpoint Contains (s substr : string) : bool :=
  HasPrefix s substr
  || match s with
     | "" => false
     | String _ s' => Contains s' substr
     end.

(** [err.Error()] is the text of the error. *)
Definition IsConflictError (err : error) : bool :=
  match err with
  | None => false
  | Some msg => Contains msg "SQLITE_BUSY"
  end.

(** [SELECT COUNT(id) FROM nodes] *)
Definition sqlCountNodes (t : Table) : Z := Z.of_nat (size t).

(** [SELECT COUNT(id) FROM nodes
    WHERE (compat_fork == TRUE) OR (compat_fork IS NULL)] *)
Definition sqlCountCompatibleNodes (t : Table) : Z :=
  Z.of_nat (length (filter (λ kr, sql_true (cond_compat_fork kr.2)) (map_to_list t))).

(** [SELECT COUNT(DISTINCT ip) FROM nodes]: the distinct values of [ip]
    that are not NULL. *)
Definition sqlCountIPs (t : Table) : Z :=
  Z.of_nat (length (remove_dups (omap (λ kr, ip kr.2) (map_to_list t)))).

(** [SELECT client_id FROM nodes], in the order in which the engine goes
    through the table. *)
Definition sqlEnumerateClientIDs (t : Table) : list (option string) :=
  (λ kr, client_id kr.2) <$> map_to_list t.

(** The three counters scan the single row of an aggregate query into a
    [uint]. *)
Definition CountNodes (db : Table) (ctx : Context) : result Z :=
  match QueryContext ctx sqlCountNodes db with
  | Err e => Err (wrap_err "CountNodes failed" e)
  | Ok count => Ok count
  end.

Definition CountCompatibleNodes (db : Table) (ctx : Context) : result Z :=
  match QueryContext ctx sqlCountCompatibleNodes db with
  | Err e => Err (wrap_err "CountCompatibleNodes failed" e)
  | Ok count => Ok count
  end.

Definition CountIPs (db : Table) (ctx : Context) : result Z :=
  match QueryContext ctx sqlCountIPs db with
  | Err e => Err (wrap_err "CountIPs failed" e)
  | Ok count => Ok count
  end.

(** [EnumerateClientIDs(ctx, enumFunc)].  The callback works on a state of
    the caller's, which the method threads through the calls and returns
    next to its error.  When [cursor.Err()] reports a failure the loop has
    stopped early, after the [read] first rows. *)
Definition EnumerateClientIDs {S : Type} (db : Table) (ctx : Context) (read : nat)
    (enumFunc : option string → S → S) (st : S) : error * S :=
  match QueryContext ctx sqlEnumerateClientIDs db with
  | Err e => (Some (wrap_err "EnumerateClientIDs failed to query" e), st)
  | Ok cursor =>
    match ctx_rows ctx with
    | Some e =>
        (Some (wrap_err "EnumerateClientIDs failed to iterate" e),
         foldl (λ st clientID, enumFunc clientID st) st (take read cursor))
    | None => (None, foldl (λ st clientID, enumFunc clientID st) st cursor)
    end
  end.

(** ** The words of the specification *)

(** [strings.IndexByte(s, c) >= 0] *)
Fixpoint contains_byte (s : string) (c : ascii) : bool :=
  match s with
  | "" => false
  | String a s' => Ascii.eqb a c || contains_byte s' c
  end.

(** A duration whose negation is a duration again (all but the least
    [int64]). *)
Definition negatable (d : Duration) : Prop := int64_min < d <= int64_max.

(** *** Handshake eligibility (section 4.4) *)




(** A stored timestamp names a whole second.  It is older than [d] at
    [now] when that second ended [d] or more before [now]. *)
Definition older_than (now : GoTime) (d : Duration) (ts : Z) : Prop :=
  (ts + 1) * second + d <= now.


Definition fork_compatible_or_unknown (r : Node) : Prop :=
  compat_fork r = Some 1 ∨ compat_fork r = None.

Definition fork_incompatible (r : Node) : Prop := compat_fork r = Some 0.

Definition within_tries_or_transient (maxHandshakeTries : Z) (transientErrTag : string)
    (r : Node) : Prop :=
  handshake_try r <= maxHandshakeTries ∨ handshake_err r = Some transientErrTag.


(** "ordered by [key] ascending (nulls first)": of two returned ids, the
    earlier one has the smaller key. *)
Definition ordered_by (key : Node → option Z) (db : Table) (ids : list NodeID) : Prop :=
  ∀ (i j : nat) idi idj ri rj,
    (i ≤ j)%nat →
    ids !! i = Some idi → ids !! j = Some idj →
    db !! idi = Some ri → db !! idj = Some rj →
    nulls_first_le (key ri) (key rj).

(** *** The address read back (section 4.1) *)



(** *** Crawl eligibility, as the query words it *)

Definition never_taken (r : Node) : Prop := taken_last r = None.

Definition last_taken_older_than (now : GoTime) (d : Duration) (r : Node) : Prop :=
  ∃ ts, taken_last r = Some ts ∧ older_than now d ts.

(** Never taken or taken longer ago than the duration; not incompatible;
    within the ping tries; within the handshake tries or failing with the
    transient error. *)
Definition crawl_candidate (now : GoTime) (minUnusedDuration : Duration)
    (maxPingTries maxHandshakeTries : Z) (transientErr : string) (r : Node) : Prop :=
  (never_taken r ∨ last_taken_older_than now minUnusedDuration r)
  ∧ fork_compatible_or_unknown r
  ∧ ping_try r <= maxPingTries
  ∧ within_tries_or_transient maxHandshakeTries transientErr r.

(** *** Histories of calls *)

(** A call of one of the methods that write, with its arguments. *)
Inductive Op : Type :=
| OpUpsertNodeAddr (now : GoTime) (id : NodeID) (addr : NodeAddr)
| OpResetPingError (id : NodeID)
| OpUpdatePingError (id : NodeID)
| OpUpdateClientID (now : GoTime) (id : NodeID) (clientID : string)
| OpUpdateHandshakeError (now : GoTime) (id : NodeID) (handshakeErr : string)
| OpMarkTakenHandshakeCandidates (now : GoTime) (ids : list NodeID)
| OpTakeHandshakeCandidates (nowFind1 nowFind2 nowMark : GoTime)
    (minUnusedOKDuration minUnusedErrDuration : Duration)
    (maxHandshakeTries : Z) (transientErr : string) (limit : Z)
| OpUpdateForkCompatibility (now : GoTime) (id : NodeID) (isCompatFork : bool)
| OpUpdateNeighborBucketKeys (id : NodeID) (keys : list string)
| OpMarkTakenNodes (now : GoTime) (ids : list NodeID)
| OpTakeCandidates (nowFind nowMark : GoTime) (minUnusedDuration : Duration)
    (maxPingTries maxHandshakeTries : Z) (transientHandshakeErr : string) (limit : Z).

(** The table after a call made under a context. *)
Definition exec_op (IP_String : list byte → string) (op : Op) (ctx : Context)
    (db : Table) : Table :=
  match op with
  | OpUpsertNodeAddr now id addr => (UpsertNodeAddr IP_String db ctx now id addr).2
  | OpResetPingError id => (ResetPingError db ctx id).2
  | OpUpdatePingError id => (UpdatePingError db ctx id).2
  | OpUpdateClientID now id clientID => (UpdateClientID db ctx now id clientID).2
  | OpUpdateHandshakeError now id e => (UpdateHandshakeError db ctx now id e).2
  | OpMarkTakenHandshakeCandidates now ids =>
      (MarkTakenHandshakeCandidates db ctx now ids).2
  | OpTakeHandshakeCandidates nowFind1 nowFind2 nowMark okD errD maxTries tag limit =>
      (TakeHandshakeCandidates db ctx nowFind1 nowFind2 nowMark okD errD maxTries
         tag limit).2
  | OpUpdateForkCompatibility now id b => (UpdateForkCompatibility db ctx now id b).2
  | OpUpdateNeighborBucketKeys id keys => (UpdateNeighborBucketKeys db ctx id keys).2
  | OpMarkTakenNodes now ids => (MarkTakenNodes db ctx now ids).2
  | OpTakeCandidates nowFind nowMark d maxPing maxTries tag limit =>
      (TakeCandidates db ctx nowFind nowMark d maxPing maxTries tag limit).2
  end.

(** The table after a history of calls, each under its own context. *)
Fixpoint run_ops (IP_String : list byte → string) (calls : list (Op * Context))
    (db : Table) : Table :=
  match calls with
  | [] => db
  | (op, ctx) :: calls' => run_ops IP_String calls' (exec_op IP_String op ctx db)
  end.

(** The ids whose records a call may write: the id it names, the ids it
    lists, or the ids its Find step returns. *)
Definition touched (op : Op) (ctx : Context) (db : Table) : list NodeID :=
  match op with
  | OpUpsertNodeAddr _ id _ | OpResetPingError id | OpUpdatePingError id
  | OpUpdateClientID _ id _ | OpUpdateHandshakeError _ id _
  | OpUpdateForkCompatibility _ id _ | OpUpdateNeighborBucketKeys id _ => [id]
  | OpMarkTakenHandshakeCandidates _ ids | OpMarkTakenNodes _ ids => ids
  | OpTakeHandshakeCandidates nowFind1 nowFind2 _ okD errD maxTries tag limit =>
      ids_of (FindHandshakeCandidates db ctx nowFind1 nowFind2 okD errD maxTries
                tag limit)
  | OpTakeCandidates nowFind _ d maxPing maxTries tag limit =>
      ids_of (FindCandidates db ctx nowFind d maxPing maxTries tag limit)
  end.

(** The row that [UpsertNodeAddr] writes for an address: over a row that
    exists, and as a new row. *)
Definition upsert_over (IP_String : list byte → string) (now : GoTime)
    (addr : NodeAddr) (r : Node) : Node :=
  set_addr (IP_String <$> IP (embedded addr))
    (port_arg (IP_String <$> IP (embedded addr)) (PortDisc (embedded addr)))
    (port_arg (IP_String <$> IP (embedded addr)) (PortRLPx (embedded addr)))
    (IP_String <$> IP (IPv6 addr))
    (port_arg (IP_String <$> IP (IPv6 addr)) (PortDisc (IPv6 addr)))
    (port_arg (IP_String <$> IP (IPv6 addr)) (PortRLPx (IPv6 addr)))
    (Unix now) r.

Definition upsert_new (IP_String : list byte → string) (now : GoTime)
    (addr : NodeAddr) : Node :=
  inserted_row (IP_String <$> IP (embedded addr))
    (port_arg (IP_String <$> IP (embedded addr)) (PortDisc (embedded addr)))
    (port_arg (IP_String <$> IP (embedded addr)) (PortRLPx (embedded addr)))
    (IP_String <$> IP (IPv6 addr))
    (port_arg (IP_String <$> IP (IPv6 addr)) (PortDisc (IPv6 addr)))
    (port_arg (IP_String <$> IP (IPv6 addr)) (PortRLPx (IPv6 addr)))
    (Unix now).

(** The ways in which one call changes a row that exists: the [SET] lists
    of the nine statements that write, with the values the methods pass. *)
Inductive row_update (IP_String : list byte → string) : Node → Node → Prop :=
| ru_addr r now addr : row_update IP_String r (upsert_over IP_String now addr r)
| ru_ping_reset r : row_update IP_String r (set_ping_try 0 r)
| ru_ping_error r : row_update IP_String r (set_ping_try (ping_try r + 1) r)
| ru_client_id r clientID updated :
    row_update IP_String r (set_handshake (Some clientID) None 0 (Some updated) r)
| ru_handshake_error r handshakeErr updated :
    row_update IP_String r
      (set_handshake (client_id r) (Some handshakeErr) (handshake_try r + 1)
         (Some updated) r)
| ru_handshake_taken r updated :
    row_update IP_String r
      (set_handshake (client_id r) (Some "taken") (handshake_try r) (Some updated) r)
| ru_fork r isCompatFork updated :
    row_update IP_String r
      (set_compat_fork (Some (sql_of_bool isCompatFork)) (Some updated) r)
| ru_neighbor_keys r keysStr :
    row_update IP_String r (set_neighbor_keys (Some keysStr) r)
| ru_taken r takenLast :
    row_update IP_String r (set_taken_last (Some takenLast) r).

(** Whether a call adds a record: an [UpsertNodeAddr] whose statement goes
    through, for an id without record. *)
Definition creates (op : Op) (ctx : Context) (db : Table) : bool :=
  match op with
  | OpUpsertNodeAddr _ id _ =>
      bool_decide (db !! id = None) && bool_decide (ctx_exec ctx = None)
  | _ => false
  end.

(** What holds of the counters, the handshake columns and the fork flag of
    every row of a table that was filled through the methods. *)
Record row_state_ok (r : Node) : Prop := mk_row_state_ok {
  ping_try_nonneg : 0 <= ping_try r;
  handshake_try_nonneg : 0 <= handshake_try r;
  never_attempted_clean :
    handshake_updated r = None →
    handshake_try r = 0 ∧ handshake_err r = None ∧ client_id r = None;
  no_error_no_tries : handshake_err r = None → handshake_try r = 0;
  compat_fork_bool :
    compat_fork r = None ∨ compat_fork r = Some 0 ∨ compat_fork r = Some 1;
  compat_fork_stamped : compat_fork r = None ↔ compat_fork_updated r = None
}.

(** A port is stored only beside its IP, and never as 0. *)
Definition port_beside_ip (ip : option string) (port : option Z) : Prop :=
  ∀ p, port = Some p → is_Some ip ∧ p ≠ 0.

Record row_addr_ok (r : Node) : Prop := mk_row_addr_ok {
  port_disc_ok : port_beside_ip (ip r) (port_disc r);
  port_rlpx_ok : port_beside_ip (ip r) (port_rlpx r);
  ip_v6_port_disc_ok : port_beside_ip (ip_v6 r) (ip_v6_port_disc r);
  ip_v6_port_rlpx_ok : port_beside_ip (ip_v6 r) (ip_v6_port_rlpx r)
}.

(** ** Values for the examples *)

(** A row as [UpsertNodeAddr] creates it. *)
Definition example_node : Node :=
  inserted_row (Some "10.0.0.1") (Some 30303) (Some 30303) None None None 1700000000.

(** A table with the single record ["a"]. *)
Definition example_db : Table := {[ "a" := example_node ]}.

(** A context whose [Commit] fails, as it does once the caller's context was
    cancelled. *)
Definition ctx_commit_fails : Context :=
  {| ctx_begin := None; ctx_exec := None; ctx_query := None; ctx_rows := None;
     ctx_commit := Some "context canceled" |}.

(** A dotted-quad printer and parser, standing in for Go's in the examples. *)
Definition example_IP_String (ip : list byte) : string :=
  Join (map (λ b, DecimalString.NilEmpty.string_of_uint (N.to_uint (Byte.to_N b))) ip) ".".


Definition example_addr : NodeAddr :=
  {| embedded := {| IP := Some [x0a; x00; x00; x01]%byte;
                    PortDisc := 30303; PortRLPx := 30304 |};
     IPv6 := {| IP := None; PortDisc := 0; PortRLPx := 7 |} |}.

(** A context whose statements fail because the database is locked. *)
Definition ctx_busy : Context :=
  {| ctx_begin := None; ctx_exec := Some "database is locked (5) (SQLITE_BUSY)";
     ctx_query := None; ctx_rows := None; ctx_commit := None |}.

(** A short history: two nodes are discovered, one fails a handshake twice
    and is found incompatible, the other is taken for a crawl. *)
Definition example_history : list (Op * Context) :=
  [ (OpUpsertNodeAddr 1000000000 "a" example_addr, no_fault);
    (OpUpsertNodeAddr 2000000000 "b" example_addr, no_fault);
    (OpUpdateHandshakeError 3000000000 "a" "timeout", no_fault);
    (OpUpdateHandshakeError 4000000000 "a" "timeout", no_fault);
    (OpUpdateForkCompatibility 5000000000 "a" false, no_fault);
    (OpTakeCandidates 6000000000 6000000000 1000000000 3 3 "timeout" 5, no_fault) ].

(** * Properties *)

(** ** Updates by id *)

Lemma update_where_id_lookup f id (t : Table) :
  update_where_id f id t !! id = f <$> t !! id.
Proof. apply lookup_alter_eq. Qed.

Lemma update_where_id_lookup_ne f id id' (t : Table) :
  id ≠ id' → update_where_id f id t !! id' = t !! id'.
Proof. intros. by apply lookup_alter_ne. Qed.

Lemma update_where_id_missing f id (t : Table) :
  t !! id = None → update_where_id f id t = t.
Proof.
  intros Hid. apply map_eq. intros k. unfold update_where_id.
  destruct (decide (id = k)) as [<-|Hne].
  - by rewrite lookup_alter_eq, Hid.
  - by rewrite lookup_alter_ne.
Qed.

Lemma update_where_id_dom f id (t : Table) :
  dom (update_where_id f id t) = dom t.
Proof. apply dom_alter_L. Qed.

Lemma update_where_id_in_lookup f ids (t : Table) k :
  update_where_id_in f ids t !! k =
  (λ r, if bool_decide (k ∈ ids) then f r else r) <$> t !! k.
Proof.
  unfold update_where_id_in. rewrite map_lookup_imap.
  by destruct (t !! k).
Qed.

Lemma update_where_id_in_missing f ids (t : Table) :
  Forall (λ id, t !! id = None) ids → update_where_id_in f ids t = t.
Proof.
  intros Hids. apply map_eq. intros k. rewrite update_where_id_in_lookup.
  destruct (t !! k) as [r|] eqn:Hk; [|done]. simpl.
  case_bool_decide as Hin; [|done].
  rewrite Forall_forall in Hids. apply Hids in Hin. congruence.
Qed.

Lemma update_where_id_in_dom f ids (t : Table) :
  dom (update_where_id_in f ids t) = dom t.
Proof.
  apply set_eq. intros k. rewrite !elem_of_dom, update_where_id_in_lookup.
  by rewrite fmap_is_Some.
Qed.

(** What a write-only method does once its statement went through. *)
Lemma ExecContext_ok ctx stmt (db : Table) :
  ctx_exec ctx = None → ExecContext ctx stmt db = (None, stmt db).
Proof. intros H. unfold ExecContext. by rewrite H. Qed.

Lemma ExecContext_dom ctx stmt (db : Table) :
  dom (stmt db) = dom db → dom (ExecContext ctx stmt db).2 = dom db.
Proof. intros H. unfold ExecContext. by destruct (ctx_exec ctx). Qed.

Ltac exec_ok H := unfold ResetPingError, UpdatePingError, UpdateClientID,
  UpdateHandshakeError, UpdateForkCompatibility, UpdateNeighborBucketKeys;
  rewrite (ExecContext_ok _ _ _ H).

(** ** Ping counter *)

Lemma ResetPingError_ok db ctx id :
  ctx_exec ctx = None →
  ResetPingError db ctx id = (None, sqlResetPingError id db).
Proof. intros H. by exec_ok H. Qed.

Lemma UpdatePingError_ok db ctx id :
  ctx_exec ctx = None →
  UpdatePingError db ctx id = (None, sqlUpdatePingError id db).
Proof. intros H. by exec_ok H. Qed.

Lemma UpdatePingError_iter db ctx id r (n : nat) :
  ctx_exec ctx = None →
  db !! id = Some r →
  ping_try <$> Nat.iter n (λ d, (UpdatePingError d ctx id).2) db !! id
  = Some (ping_try r + Z.of_nat n).
Proof.
  intros Hctx Hr. induction n as [|n IH].
  - simpl. rewrite Hr. simpl. f_equal. lia.
  - rewrite Nat.iter_succ, UpdatePingError_ok by done. simpl.
    unfold sqlUpdatePingError. rewrite update_where_id_lookup.
    destruct (Nat.iter n _ db !! id) as [r'|]; simpl in *; [|done].
    injection IH as IH. f_equal. lia.
Qed.

(** C9. For a record that exists, [ResetPingError] succeeds and leaves
    [ping_try] at 0, a second [ResetPingError] succeeds and leaves it at 0
    again (and changes nothing else); from [ping_try = 0], [n] calls of
    [UpdatePingError] leave [ping_try] at [n], each call succeeding and
    adding exactly 1 to the stored counter. *)
Theorem ping_counter_algebra (db : Table) (ctx : Context) (id : NodeID) (r : Node) :
  db !! id = Some r →
  ctx_exec ctx = None →
  (ResetPingError db ctx id).1 = None
  ∧ ping_try <$> (ResetPingError db ctx id).2 !! id = Some 0
  ∧ (ResetPingError (ResetPingError db ctx id).2 ctx id).1 = None
  ∧ ping_try <$> (ResetPingError (ResetPingError db ctx id).2 ctx id).2 !! id = Some 0
  ∧ (ResetPingError (ResetPingError db ctx id).2 ctx id).2 = (ResetPingError db ctx id).2
  ∧ (ping_try r = 0 →
     ∀ n : nat,
       ping_try <$> Nat.iter n (λ d, (UpdatePingError d ctx id).2) db !! id
       = Some (Z.of_nat n))
  ∧ (UpdatePingError db ctx id).1 = None
  ∧ ping_try <$> (UpdatePingError db ctx id).2 !! id = Some (ping_try r + 1).
Proof.
  intros Hr Hctx.
  rewrite !ResetPingError_ok, UpdatePingError_ok by done. simpl.
  unfold sqlResetPingError, sqlUpdatePingError.
  rewrite !update_where_id_lookup, Hr. simpl.
  repeat split; try done.
  - apply map_eq. intros k. destruct (decide (id = k)) as [<-|Hne].
    + rewrite !update_where_id_lookup, Hr. done.
    + by rewrite !update_where_id_lookup_ne.
  - intros H0 n. rewrite (UpdatePingError_iter db ctx id r n Hctx Hr).
    f_equal. lia.
Qed.

(** ** Success resets the handshake backoff *)

(** C6. For a record that exists, [UpdateClientID] succeeds, stores the
    client id, clears [handshake_err], puts [handshake_try] back to 0 whatever
    it was, sets [handshake_updated] to the second of the call and leaves the
    other columns alone; [FindHandshakeLastTry] then reports no error and a
    try count of 0. *)
Theorem UpdateClientID_resets_backoff (db : Table) (ctx ctx' : Context)
    (now : GoTime) (id : NodeID) (clientID : string) (r : Node) :
  db !! id = Some r →
  ctx_exec ctx = None →
  ctx_query ctx' = None →
  ∃ r',
    UpdateClientID db ctx now id clientID = (None, <[id := r']> db)
    ∧ client_id r' = Some clientID
    ∧ handshake_err r' = None
    ∧ handshake_try r' = 0
    ∧ handshake_updated r' = Some (Unix now)
    ∧ r' = set_handshake (Some clientID) None 0 (Some (Unix now)) r
    ∧ FindHandshakeLastTry (UpdateClientID db ctx now id clientID).2 ctx' id
      = Ok (Some {| hasError := false; tryCount := 0;
                    lastUpdated := time_Unix (Unix now) |}).
Proof.
  intros Hr Hctx Hq.
  exists (set_handshake (Some clientID) None 0 (Some (Unix now)) r).
  assert (Hdb : sqlUpdateClientID clientID (Unix now) id db
                = <[id := set_handshake (Some clientID) None 0 (Some (Unix now)) r]> db).
  { apply map_eq. intros k. unfold sqlUpdateClientID.
    destruct (decide (id = k)) as [<-|Hne].
    - by rewrite update_where_id_lookup, Hr, lookup_insert_eq.
    - by rewrite update_where_id_lookup_ne, lookup_insert_ne. }
  exec_ok Hctx. rewrite Hdb. repeat split; try done.
  unfold FindHandshakeLastTry, QueryRowContext, sqlFindHandshakeLastTry.
  rewrite Hq. simpl. rewrite lookup_insert_eq. simpl. done.
Qed.

(** ** Records that do not exist *)

Lemma MarkTakenNodes_missing db ctx now ids :
  ctx_exec ctx = None →
  Forall (λ id, db !! id = None) ids →
  MarkTakenNodes db ctx now ids = (None, db).
Proof.
  intros Hctx Hids. unfold MarkTakenNodes. destruct ids as [|id ids]; [done|].
  rewrite ExecContext_ok by done. unfold sqlMarkTakenNodes.
  by rewrite update_where_id_in_missing.
Qed.

Lemma MarkTakenHandshakeCandidates_missing db ctx now ids :
  ctx_exec ctx = None →
  Forall (λ id, db !! id = None) ids →
  MarkTakenHandshakeCandidates db ctx now ids = (None, db).
Proof.
  intros Hctx Hids. unfold MarkTakenHandshakeCandidates.
  destruct ids as [|id ids]; [done|].
  rewrite ExecContext_ok by done. unfold sqlMarkTakenHandshakeCandidates.
  by rewrite update_where_id_in_missing.
Qed.

Lemma MarkTakenNodes_dom db ctx now ids :
  dom (MarkTakenNodes db ctx now ids).2 = dom db.
Proof.
  unfold MarkTakenNodes. destruct ids as [|id ids]; [done|].
  pose proof (ExecContext_dom ctx (sqlMarkTakenNodes (Unix now) (id :: ids)) db
                (update_where_id_in_dom _ _ _)) as H.
  by destruct (ExecContext _ _ _) as [[e|] db'].
Qed.

Lemma MarkTakenHandshakeCandidates_dom db ctx now ids :
  dom (MarkTakenHandshakeCandidates db ctx now ids).2 = dom db.
Proof.
  unfold MarkTakenHandshakeCandidates. destruct ids as [|id ids]; [done|].
  pose proof (ExecContext_dom ctx
                (sqlMarkTakenHandshakeCandidates (Unix now) (id :: ids)) db
                (update_where_id_in_dom _ _ _)) as H.
  by destruct (ExecContext _ _ _) as [[e|] db'].
Qed.

(** The single-row updates never add or remove a row. *)
Lemma single_row_updates_dom db ctx now id :
  dom (ResetPingError db ctx id).2 = dom db
  ∧ dom (UpdatePingError db ctx id).2 = dom db
  ∧ (∀ clientID, dom (UpdateClientID db ctx now id clientID).2 = dom db)
  ∧ (∀ e, dom (UpdateHandshakeError db ctx now id e).2 = dom db)
  ∧ (∀ b, dom (UpdateForkCompatibility db ctx now id b).2 = dom db)
  ∧ (∀ keys, dom (UpdateNeighborBucketKeys db ctx id keys).2 = dom db).
Proof.
  unfold ResetPingError, UpdatePingError, UpdateClientID, UpdateHandshakeError,
    UpdateForkCompatibility, UpdateNeighborBucketKeys.
  repeat split; intros;
    match goal with
    | |- context [ExecContext ?c ?s ?d] =>
        pose proof (ExecContext_dom c s d (update_where_id_dom _ _ _));
        by destruct (ExecContext c s d) as [[?|] ?]
    end.
Qed.

(** C10. When no record exists for [id] and the statement goes through,
    each of the eight updating methods returns nil and leaves the table as it
    was ([MarkTakenNodes] and [MarkTakenHandshakeCandidates] for any list of
    ids without records); whatever their arguments and outcome, these methods
    keep the set of stored ids; [UpsertNodeAddr] returns nil and does create
    the record. *)
Theorem updates_of_missing_record (db : Table) (ctx : Context) (now : GoTime)
    (id : NodeID) :
  db !! id = None →
  ctx_exec ctx = None →
  ResetPingError db ctx id = (None, db)
  ∧ UpdatePingError db ctx id = (None, db)
  ∧ (∀ clientID, UpdateClientID db ctx now id clientID = (None, db))
  ∧ (∀ handshakeErr, UpdateHandshakeError db ctx now id handshakeErr = (None, db))
  ∧ (∀ isCompatFork, UpdateForkCompatibility db ctx now id isCompatFork = (None, db))
  ∧ (∀ keys, UpdateNeighborBucketKeys db ctx id keys = (None, db))
  ∧ MarkTakenNodes db ctx now [id] = (None, db)
  ∧ MarkTakenHandshakeCandidates db ctx now [id] = (None, db)
  ∧ (∀ ids, Forall (λ i, db !! i = None) ids →
        MarkTakenNodes db ctx now ids = (None, db)
        ∧ MarkTakenHandshakeCandidates db ctx now ids = (None, db))
  ∧ (∀ (db0 : Table) ctx0 now0 id0,
        dom (ResetPingError db0 ctx0 id0).2 = dom db0
        ∧ dom (UpdatePingError db0 ctx0 id0).2 = dom db0
        ∧ (∀ clientID, dom (UpdateClientID db0 ctx0 now0 id0 clientID).2 = dom db0)
        ∧ (∀ e, dom (UpdateHandshakeError db0 ctx0 now0 id0 e).2 = dom db0)
        ∧ (∀ b, dom (UpdateForkCompatibility db0 ctx0 now0 id0 b).2 = dom db0)
        ∧ (∀ keys, dom (UpdateNeighborBucketKeys db0 ctx0 id0 keys).2 = dom db0)
        ∧ (∀ ids, dom (MarkTakenNodes db0 ctx0 now0 ids).2 = dom db0)
        ∧ (∀ ids, dom (MarkTakenHandshakeCandidates db0 ctx0 now0 ids).2 = dom db0))
  ∧ (∀ IP_String addr,
        (UpsertNodeAddr IP_String db ctx now id addr).1 = None
        ∧ is_Some ((UpsertNodeAddr IP_String db ctx now id addr).2 !! id)
        ∧ dom (UpsertNodeAddr IP_String db ctx now id addr).2 = {[id]} ∪ dom db).
Proof.
  intros Hid Hctx.
  assert (Hone : ∀ f, update_where_id f id db = db)
    by (intros; by apply update_where_id_missing).
  split; [by exec_ok Hctx; unfold sqlResetPingError; rewrite Hone|].
  split; [by exec_ok Hctx; unfold sqlUpdatePingError; rewrite Hone|].
  split; [by intros; exec_ok Hctx; unfold sqlUpdateClientID; rewrite Hone|].
  split; [by intros; exec_ok Hctx; unfold sqlUpdateHandshakeError; rewrite Hone|].
  split; [by intros; exec_ok Hctx; unfold sqlUpdateForkCompatibility; rewrite Hone|].
  split; [by intros; exec_ok Hctx; unfold sqlUpdateNeighborBucketKeys; rewrite Hone|].
  split; [apply MarkTakenNodes_missing; auto|].
  split; [apply MarkTakenHandshakeCandidates_missing; auto|].
  split.
  { intros ids Hids. split;
      [by apply MarkTakenNodes_missing | by apply MarkTakenHandshakeCandidates_missing]. }
  split.
  { intros db0 ctx0 now0 id0.
    destruct (single_row_updates_dom db0 ctx0 now0 id0) as (?&?&?&?&?&?).
    repeat split; auto using MarkTakenNodes_dom, MarkTakenHandshakeCandidates_dom. }
  intros IP_String addr. unfold UpsertNodeAddr.
  rewrite ExecContext_ok by done. unfold sqlUpsertNodeAddr. rewrite Hid. simpl.
  rewrite lookup_insert_eq, dom_insert_L. eauto.
Qed.

(** ** Neighbor bucket keys *)

Lemma Split_no_sep (k : string) (c : ascii) :
  contains_byte k c = false → Split k c = [k].
Proof.
  induction k as [|a k IH]; simpl; [done|].
  intros H. apply orb_false_iff in H as [Ha Hk].
  rewrite Ha, (IH Hk). done.
Qed.

Lemma Split_app_sep (k rest : string) (c : ascii) :
  contains_byte k c = false →
  Split (k +:+ String c rest) c = k :: Split rest c.
Proof.
  induction k as [|a k IH]; simpl.
  - intros _. by rewrite Ascii.eqb_refl.
  - intros H. apply orb_false_iff in H as [Ha Hk].
    rewrite Ha, (IH Hk). done.
Qed.

Lemma Split_Join (keys : list string) :
  keys ≠ [] →
  Forall (λ k, contains_byte k "," = false) keys →
  Split (Join keys ",") "," = keys.
Proof.
  induction keys as [|k keys IH]; [done|].
  intros _ Hall. apply Forall_cons in Hall as [Hk Hkeys].
  destruct keys as [|k' keys].
  - simpl. by apply Split_no_sep.
  - change (Join (k :: k' :: keys) ",") with (k +:+ String "," (Join (k' :: keys) ",")).
    rewrite Split_app_sep by done. f_equal. by apply IH.
Qed.

Lemma UpdateNeighborBucketKeys_ok db ctx id keys r :
  db !! id = Some r →
  ctx_exec ctx = None →
  UpdateNeighborBucketKeys db ctx id keys
  = (None, <[id := set_neighbor_keys (Some (Join keys ",")) r]> db).
Proof.
  intros Hr Hctx. exec_ok Hctx. f_equal.
  apply map_eq. intros k. unfold sqlUpdateNeighborBucketKeys.
  destruct (decide (id = k)) as [<-|Hne].
  - by rewrite update_where_id_lookup, Hr, lookup_insert_eq.
  - by rewrite update_where_id_lookup_ne, lookup_insert_ne.
Qed.

(** C8, amended.  For a record that exists and a list of keys that is not
    empty and whose keys hold no comma, [UpdateNeighborBucketKeys] succeeds
    and stores the list whatever was stored before, and
    [FindNeighborBucketKeys] then returns exactly that list;
    [FindNeighborBucketKeys] returns nil when the keys were never set and
    when there is no record. *)
Theorem neighbor_keys_roundtrip (db : Table) (ctx ctx' : Context) (id : NodeID)
    (keys : list string) (r : Node) :
  db !! id = Some r →
  ctx_exec ctx = None →
  ctx_query ctx' = None →
  keys ≠ [] →
  Forall (λ k, contains_byte k "," = false) keys →
  UpdateNeighborBucketKeys db ctx id keys
    = (None, <[id := set_neighbor_keys (Some (Join keys ",")) r]> db)
  ∧ FindNeighborBucketKeys (UpdateNeighborBucketKeys db ctx id keys).2 ctx' id
    = Ok (Some keys)
  ∧ (neighbor_keys r = None → FindNeighborBucketKeys db ctx' id = Ok None)
  ∧ (∀ id', db !! id' = None → FindNeighborBucketKeys db ctx' id' = Ok None).
Proof.
  intros Hr Hctx Hq Hne Hkeys.
  rewrite (UpdateNeighborBucketKeys_ok db ctx id keys r Hr Hctx).
  unfold FindNeighborBucketKeys, QueryRowContext, sqlFindNeighborBucketKeys.
  rewrite Hq. simpl. rewrite lookup_insert_eq. simpl.
  rewrite Split_Join by done. repeat split; try done.
  - intros Hnone. rewrite Hr. simpl. by rewrite Hnone.
  - intros id' Hid'. by rewrite Hid'.
Qed.

Lemma neighbor_keys_roundtrip_witness :
  FindNeighborBucketKeys
    (UpdateNeighborBucketKeys example_db no_fault "a" ["k1"; "k2"]).2 no_fault "a"
  = Ok (Some ["k1"; "k2"]).
Proof.
  refine (proj1 (proj2 (neighbor_keys_roundtrip example_db no_fault no_fault "a"
                          ["k1"; "k2"] example_node _ _ _ _ _)));
    try reflexivity; [discriminate | repeat constructor].
Defined.

(** A key with a comma in it comes back as two keys. *)
Lemma neighbor_keys_comma_counterexample :
  FindNeighborBucketKeys
    (UpdateNeighborBucketKeys example_db no_fault "a" ["x,y"]).2 no_fault "a"
  = Ok (Some ["x"; "y"])
  ∧ FindNeighborBucketKeys
      (UpdateNeighborBucketKeys example_db no_fault "a" ["x,y"]).2 no_fault "a"
    ≠ Ok (Some ["x,y"]).
Proof. split; [vm_compute; reflexivity | vm_compute; discriminate]. Qed.

(** The empty list of keys is stored as the empty string, which reads back as
    one empty key. *)
Lemma neighbor_keys_empty_list :
  FindNeighborBucketKeys
    (UpdateNeighborBucketKeys example_db no_fault "a" []).2 no_fault "a"
  = Ok (Some [""]).
Proof. vm_compute; reflexivity. Qed.

(** ** The address store *)

Section AddressRoundTrip.
Variable IP_String : list byte → string.
Variable ParseIP : string → IP_t.


End AddressRoundTrip.


(** ** [SELECT id .. WHERE .. ORDER BY .. LIMIT ..] *)

Lemma collect_id (rows : list string) : collect rows = rows.
Proof.
  unfold collect.
  enough (H : ∀ acc : list string,
            foldl (λ (nodes : list NodeID) id, (nodes ++ [id])%list) acc rows
            = (acc ++ rows)%list) by apply (H []).
  induction rows as [|x rows IH]; intros acc; simpl.
  - by rewrite app_nil_r.
  - rewrite IH, <- app_assoc. done.
Qed.

Lemma sql_limit_take {A} (n : Z) (l : list A) :
  sql_limit n l = take (if n <? 0 then length l else Z.to_nat n) l.
Proof.
  unfold sql_limit. destruct (n <? 0); [|done]. by rewrite firstn_all.
Qed.

Lemma StronglySorted_lookup_le {A} (R : relation A) `{!Reflexive R} (l : list A)
    (i j : nat) (a b : A) :
  StronglySorted R l → (i ≤ j)%nat → l !! i = Some a → l !! j = Some b → R a b.
Proof.
  intros Hs. revert i j a b.
  induction Hs as [|x l Hs IH Hx]; intros i j a b Hij Hi Hj.
  - by rewrite lookup_nil in Hi.
  - destruct i as [|i], j as [|j]; simpl in *; simplify_eq.
    + reflexivity.
    + rewrite Forall_forall in Hx. apply Hx.
      eapply list_elem_of_lookup_2. done.
    + lia.
    + eapply (IH i j); [lia|done..].
Qed.

#[global] Instance order_by_refl key : Reflexive (order_by key).
Proof. intros a. destruct (order_by_total key a a); done. Qed.

Section Select.
Variable cond : Node → sqlbool.
Variable key : Node → option Z.
Variable t : Table.

Local Abbreviation selected := (selected_rows cond key t).

Lemma select_ids_selected n :
  select_ids cond key n t
  = (take (if n <? 0 then length selected else Z.to_nat n) selected).*1.
Proof.
  unfold select_ids, selected_rows.
  by rewrite sql_limit_take, length_fmap, fmap_take.
Qed.

Lemma elem_of_selected k r :
  (k, r) ∈ selected ↔ t !! k = Some r ∧ sql_true (cond r) = true.
Proof.
  unfold selected_rows. rewrite merge_sort_Permutation, list_elem_of_filter.
  rewrite elem_of_map_to_list. simpl. rewrite Is_true_true. tauto.
Qed.

Lemma selected_sorted : StronglySorted (order_by key) selected.
Proof. apply StronglySorted_merge_sort; apply _. Qed.

Lemma selected_NoDup : NoDup selected.*1.
Proof.
  unfold selected_rows. rewrite merge_sort_Permutation.
  eapply NoDup_fmap_fst.
  - intros k r1 r2 H1 H2.
    apply list_elem_of_filter in H1 as [_ H1], H2 as [_ H2].
    apply elem_of_map_to_list in H1, H2. congruence.
  - apply NoDup_filter, NoDup_map_to_list.
Qed.

Lemma select_ids_lookup n i id :
  select_ids cond key n t !! i = Some id →
  ∃ r, selected !! i = Some (id, r) ∧ t !! id = Some r ∧ sql_true (cond r) = true.
Proof.
  rewrite select_ids_selected, list_lookup_fmap.
  destruct (take _ selected !! i) as [[k r]|] eqn:Hi; simpl; [|done].
  intros [= ->]. apply lookup_take_Some in Hi as [Hi _].
  exists r. split; [done|]. apply elem_of_selected.
  eapply list_elem_of_lookup_2. done.
Qed.

Lemma select_ids_sound n id :
  id ∈ select_ids cond key n t →
  ∃ r, t !! id = Some r ∧ sql_true (cond r) = true.
Proof.
  intros Hin. apply list_elem_of_lookup_1 in Hin as [i Hi].
  apply select_ids_lookup in Hi as (r & _ & ? & ?). eauto.
Qed.

Lemma select_ids_NoDup n : NoDup (select_ids cond key n t).
Proof.
  rewrite select_ids_selected, fmap_take.
  eapply sublist_NoDup; [apply selected_NoDup | apply sublist_take].
Qed.

Lemma select_ids_length n :
  0 <= n → Z.of_nat (length (select_ids cond key n t)) <= n.
Proof.
  intros Hn. rewrite select_ids_selected, length_fmap, length_take.
  destruct (Z.ltb_spec n 0); lia.
Qed.

Lemma select_ids_ordered n : ordered_by key t (select_ids cond key n t).
Proof.
  intros i j idi idj ri rj Hij Hi Hj Hri Hrj.
  apply select_ids_lookup in Hi as (ri' & Hi & Hri' & _).
  apply select_ids_lookup in Hj as (rj' & Hj & Hrj' & _).
  assert (ri' = ri) as -> by congruence.
  assert (rj' = rj) as -> by congruence.
  apply (StronglySorted_lookup_le (order_by key) selected i j (idi, ri) (idj, rj));
    auto using selected_sorted.
Qed.

(** A selected row is returned unless the limit is reached by rows that
    come no later in the order. *)
Lemma select_ids_complete n id r :
  0 <= n →
  t !! id = Some r → sql_true (cond r) = true →
  id ∈ select_ids cond key n t
  ∨ (Z.of_nat (length (select_ids cond key n t)) = n
     ∧ ∀ id' r', id' ∈ select_ids cond key n t → t !! id' = Some r' →
                 nulls_first_le (key r') (key r)).
Proof.
  intros Hn Hr Hc.
  assert (Hin : (id, r) ∈ selected) by (by apply elem_of_selected).
  rewrite select_ids_selected.
  destruct (Z.ltb_spec n 0) as [?|_]; [lia|].
  rewrite <- (take_drop (Z.to_nat n) selected) in Hin.
  apply elem_of_app in Hin as [Hin|Hin].
  - left. apply list_elem_of_fmap. by exists (id, r).
  - right. split.
    + rewrite length_fmap, length_take.
      apply list_elem_of_lookup_1 in Hin as [i Hi].
      apply lookup_lt_Some in Hi. rewrite length_drop in Hi. lia.
    + intros id' r' Hin' Hr'.
      apply list_elem_of_fmap in Hin' as ([k r0] & -> & Hin'). simpl in Hr'.
      assert (r0 = r') as ->.
      { apply elem_of_take in Hin' as (? & Hl & _).
        apply list_elem_of_lookup_2, elem_of_selected in Hl as [Hl _].
        congruence. }
      pose proof selected_sorted as Hs.
      rewrite <- (take_drop (Z.to_nat n) selected) in Hs.
      apply (StronglySorted_app_1_elem_of _ _ _ _ _ Hs Hin' Hin).
Qed.
End Select.

(** ** Time bounds *)

Lemma neg_duration_negatable (d : Duration) :
  negatable d → neg_duration d = - d.
Proof.
  unfold negatable, neg_duration, to_int64, int64_min, int64_max. intros Hd.
  rewrite Z.mod_small; lia.
Qed.

Lemma bind_uint_fits (v : Z) : uint_fits v → bind_uint v = v.
Proof.
  unfold uint_fits, bind_uint, to_int64, int64_max. intros Hv.
  rewrite Z.mod_small; lia.
Qed.

Lemma second_pos : 0 < second.
Proof. reflexivity. Qed.

(** A timestamp is before the second of an instant exactly when its whole
    second ended by then. *)
Lemma lt_Unix (ts : Z) (t : GoTime) : ts < Unix t ↔ (ts + 1) * second <= t.
Proof.
  unfold Unix. pose proof second_pos as Hs. split; intros H.
  - pose proof (Z.mul_div_le t second Hs). nia.
  - assert (ts + 1 <= t / second); [|lia].
    apply Z.div_le_lower_bound; lia.
Qed.

Lemma older_than_cutoff (now : GoTime) (d : Duration) (ts : Z) :
  negatable d →
  ts < Unix (Add now (neg_duration d)) ↔ older_than now d ts.
Proof.
  intros Hd. rewrite neg_duration_negatable by done.
  unfold Add, older_than. rewrite lt_Unix. lia.
Qed.

(** For a duration of [k] whole seconds, "older than" compares clock seconds:
    more than [k] of them lie between the stored second and the current
    one. *)
Lemma older_than_whole_seconds (now : GoTime) (k ts : Z) :
  older_than now (k * second) ts ↔ Unix now - ts > k.
Proof.
  unfold older_than.
  replace ((ts + 1) * second + k * second) with ((ts + k + 1) * second) by lia.
  rewrite <- lt_Unix. lia.
Qed.

(** ** The conditions of the two queries *)

Lemma sql_true_and a b : sql_true (sql_and a b) = true ↔ sql_true a = true ∧ sql_true b = true.
Proof. destruct a as [[]|], b as [[]|]; simpl; intuition congruence. Qed.

Lemma sql_true_or a b : sql_true (sql_or a b) = true ↔ sql_true a = true ∨ sql_true b = true.
Proof. destruct a as [[]|], b as [[]|]; simpl; intuition congruence. Qed.

Lemma sql_true_is_null {A} (v : option A) : sql_true (sql_is_null v) = true ↔ v = None.
Proof. destruct v; simpl; intuition congruence. Qed.


Lemma sql_true_lt (a : option Z) (y : Z) :
  sql_true (sql_lt a (Some y)) = true ↔ ∃ x, a = Some x ∧ x < y.
Proof.
  destruct a as [x|]; simpl.
  - split.
    + intros H. exists x. split; [done|].
      destruct (Z.ltb_spec x y); [done|discriminate].
    + intros (x' & [= <-] & Hlt).
      destruct (Z.ltb_spec x y); [done|lia].
  - split; [done|]. by intros (? & ? & _).
Qed.

Lemma sql_true_le (x y : Z) : sql_true (sql_le (Some x) (Some y)) = true ↔ x <= y.
Proof. simpl. destruct (Z.leb_spec x y); split; intros; try done; lia. Qed.

Lemma sql_true_eq_int (a : option Z) (y : Z) :
  sql_true (sql_eq_int a (Some y)) = true ↔ a = Some y.
Proof.
  destruct a as [x|]; simpl; [|done].
  destruct (Z.eqb_spec x y); split; intros; congruence.
Qed.

Lemma sql_true_eq_text (a : option string) (y : string) :
  sql_true (sql_eq_text a (Some y)) = true ↔ a = Some y.
Proof.
  destruct a as [x|]; simpl; [|done].
  destruct (String.eqb_spec x y); split; intros; congruence.
Qed.

Lemma cond_compat_fork_spec (r : Node) :
  sql_true (cond_compat_fork r) = true ↔ fork_compatible_or_unknown r.
Proof.
  unfold cond_compat_fork, fork_compatible_or_unknown.
  by rewrite sql_true_or, sql_true_eq_int, sql_true_is_null.
Qed.

Lemma cond_compat_fork_incompatible (r : Node) :
  fork_incompatible r → sql_true (cond_compat_fork r) = false.
Proof. unfold fork_incompatible, cond_compat_fork. by intros ->. Qed.

Lemma cond_handshake_try_spec (maxHandshakeTries : Z) (transientErr : string) (r : Node) :
  sql_true (cond_handshake_try maxHandshakeTries transientErr r) = true
  ↔ within_tries_or_transient maxHandshakeTries transientErr r.
Proof.
  unfold cond_handshake_try, within_tries_or_transient.
  by rewrite sql_true_or, sql_true_le, sql_true_eq_text.
Qed.


(** ** The two finders *)


Lemma FindCandidates_ok db ctx now d maxPing maxTries transientErr limit :
  ctx_query ctx = None → ctx_rows ctx = None →
  FindCandidates db ctx now d maxPing maxTries transientErr limit
  = Ok (sqlFindCandidates (Unix (Add now (neg_duration d))) (bind_uint maxPing)
          (bind_uint maxTries) transientErr (bind_uint limit) db).
Proof.
  intros Hq Hr. unfold FindCandidates, QueryContext.
  by rewrite Hq, Hr, collect_id.
Qed.

(** Whatever the context, a finder returns ids of rows on which its
    condition is true. *)
Lemma FindHandshakeCandidates_sound db ctx now1 now2 okD errD maxTries transientErr
    limit id :
  id ∈ ids_of (FindHandshakeCandidates db ctx now1 now2 okD errD maxTries
                 transientErr limit) →
  ∃ r, db !! id = Some r
       ∧ sql_true (whereFindHandshakeCandidates
                     (Unix (Add now1 (neg_duration okD)))
                     (Unix (Add now2 (neg_duration errD)))
                     (bind_uint maxTries) transientErr r) = true.
Proof.
  unfold FindHandshakeCandidates, QueryContext.
  destruct (ctx_query ctx); simpl; [by intros ?%elem_of_nil|].
  destruct (ctx_rows ctx); simpl; [by intros ?%elem_of_nil|].
  rewrite collect_id. apply select_ids_sound.
Qed.

Lemma FindCandidates_sound db ctx now d maxPing maxTries transientErr limit id :
  id ∈ ids_of (FindCandidates db ctx now d maxPing maxTries transientErr limit) →
  ∃ r, db !! id = Some r
       ∧ sql_true (whereFindCandidates (Unix (Add now (neg_duration d)))
                     (bind_uint maxPing) (bind_uint maxTries) transientErr r) = true.
Proof.
  unfold FindCandidates, QueryContext.
  destruct (ctx_query ctx); simpl; [by intros ?%elem_of_nil|].
  destruct (ctx_rows ctx); simpl; [by intros ?%elem_of_nil|].
  rewrite collect_id. apply select_ids_sound.
Qed.



(** ** Fork compatibility *)

Lemma UpdateForkCompatibility_lookup db ctx now id b :
  ctx_exec ctx = None →
  (UpdateForkCompatibility db ctx now id b).2 !! id
  = set_compat_fork (Some (sql_of_bool b)) (Some (Unix now)) <$> db !! id.
Proof.
  intros Hctx. exec_ok Hctx. simpl. unfold sqlUpdateForkCompatibility.
  apply update_where_id_lookup.
Qed.

(** C4. [UpdateForkCompatibility(id, false)] on an existing record leaves it
    incompatible; and a record that is incompatible is returned neither by
    [FindHandshakeCandidates] nor by [FindCandidates], whatever its other
    columns, the arguments of the query and its outcome. *)
Theorem incompatible_never_candidate (db0 : Table) (ctx0 : Context) (now0 : GoTime)
    (id : NodeID) (r0 : Node) :
  db0 !! id = Some r0 →
  ctx_exec ctx0 = None →
  (∃ r, (UpdateForkCompatibility db0 ctx0 now0 id false).2 !! id = Some r
        ∧ fork_incompatible r)
  ∧ ∀ (db : Table) (r : Node),
      db !! id = Some r → fork_incompatible r →
      (∀ ctx now1 now2 okD errD maxHandshakeTries transientErr limit,
         id ∉ ids_of (FindHandshakeCandidates db ctx now1 now2 okD errD
                        maxHandshakeTries transientErr limit))
      ∧ (∀ ctx now d maxPingTries maxHandshakeTries transientErr limit,
           id ∉ ids_of (FindCandidates db ctx now d maxPingTries
                          maxHandshakeTries transientErr limit)).
Proof.
  intros Hr0 Hctx. split.
  - rewrite UpdateForkCompatibility_lookup, Hr0 by done. simpl.
    eexists. split; reflexivity.
  - intros db r Hr Hinc. pose proof (cond_compat_fork_incompatible r Hinc) as Hc.
    split; intros.
    + intros (r' & Hr' & Hw)%FindHandshakeCandidates_sound.
      assert (r' = r) as -> by congruence.
      unfold whereFindHandshakeCandidates in Hw.
      rewrite !sql_true_and in Hw. destruct Hw as [[_ Hw] _]. congruence.
    + intros (r' & Hr' & Hw)%FindCandidates_sound.
      assert (r' = r) as -> by congruence.
      unfold whereFindCandidates in Hw.
      rewrite !sql_true_and in Hw. destruct Hw as [[[_ Hw] _] _]. congruence.
Qed.

Lemma incompatible_never_candidate_witness :
  "a" ∉ ids_of (FindCandidates
                  (UpdateForkCompatibility example_db no_fault 5 "a" false).2
                  no_fault (20 * second) (10 * second) 3 3 "timeout" 10).
Proof.
  destruct (incompatible_never_candidate example_db no_fault 5 "a" example_node
              eq_refl eq_refl) as [(r & Hr & Hinc) Hall].
  exact (proj2 (Hall _ r Hr Hinc) no_fault (20 * second) (10 * second) 3 3
           "timeout" 10).
Defined.

(** ** Claim cooldown *)

Lemma MarkTakenNodes_lookup db ctx now id :
  ctx_exec ctx = None →
  (MarkTakenNodes db ctx now [id]).2 !! id
  = set_taken_last (Some (Unix now)) <$> db !! id.
Proof.
  intros Hctx. unfold MarkTakenNodes. rewrite ExecContext_ok by done. simpl.
  unfold sqlMarkTakenNodes. rewrite update_where_id_in_lookup.
  destruct (db !! id); simpl; [|done].
  rewrite bool_decide_eq_true_2; [done|]. apply list_elem_of_singleton. done.
Qed.

Lemma cond_unused_spec (q : GoTime) (d : Duration) (r : Node) (ts : Z) :
  negatable d →
  taken_last r = Some ts →
  sql_true (cond_unused (Unix (Add q (neg_duration d))) r) = true
  ↔ older_than q d ts.
Proof.
  intros Hd Hts. unfold cond_unused.
  rewrite sql_true_or, sql_true_lt, sql_true_is_null, Hts.
  rewrite <- (older_than_cutoff q d ts Hd). split.
  - intros [?|(x & [= <-] & ?)]; done.
  - intros ?. right. eauto.
Qed.

Lemma Unix_bounds (t : GoTime) : Unix t * second <= t < (Unix t + 1) * second.
Proof.
  unfold Unix. pose proof second_pos as Hs.
  pose proof (Z.mul_div_le t second Hs).
  pose proof (Z.mod_pos_bound t second Hs).
  pose proof (Z.div_mod t second). lia.
Qed.

(** C5, amended.  After [MarkTakenNodes([id])] at the instant [t],
    [FindCandidates] with the duration [d] does not return [id] at any
    instant [q] earlier than [t + d].  The cooldown condition of the query
    stops excluding the record exactly when [d] has elapsed since the end of
    the clock second in which the mark was made; this is the case at every
    instant from [t + d] plus one second on, and at no instant before
    [t + d]. *)
Theorem claim_cooldown (db : Table) (ctx : Context) (t : GoTime) (id : NodeID)
    (d : Duration) :
  ctx_exec ctx = None →
  negatable d →
  (∀ q ctx' maxPingTries maxHandshakeTries transientErr limit,
     q < t + d →
     id ∉ ids_of (FindCandidates (MarkTakenNodes db ctx t [id]).2 ctx' q d
                    maxPingTries maxHandshakeTries transientErr limit))
  ∧ (∀ r, db !! id = Some r →
       ∃ r', (MarkTakenNodes db ctx t [id]).2 !! id = Some r'
             ∧ taken_last r' = Some (Unix t)
             ∧ ∀ q,
                 (sql_true (cond_unused (Unix (Add q (neg_duration d))) r') = true
                  ↔ (Unix t + 1) * second + d <= q)
                 ∧ (t + d + second <= q →
                    sql_true (cond_unused (Unix (Add q (neg_duration d))) r') = true)
                 ∧ (q < t + d →
                    sql_true (cond_unused (Unix (Add q (neg_duration d))) r') = false)).
Proof.
  intros Hctx Hd.
  assert (Hmarked : ∀ r, db !! id = Some r →
    ∃ r', (MarkTakenNodes db ctx t [id]).2 !! id = Some r'
          ∧ taken_last r' = Some (Unix t)).
  { intros r Hr. rewrite MarkTakenNodes_lookup, Hr by done. simpl. eauto. }
  pose proof (Unix_bounds t) as Ht.
  split.
  - intros q ctx' maxPing maxTries transientErr limit Hq
      (r' & Hr' & Hw)%FindCandidates_sound.
    rewrite MarkTakenNodes_lookup in Hr' by done.
    destruct (db !! id) as [r|] eqn:Hr; [|done]. simpl in Hr'.
    injection Hr' as <-.
    unfold whereFindCandidates in Hw. rewrite !sql_true_and in Hw.
    destruct Hw as [[[Hw _] _] _].
    apply (cond_unused_spec q d (set_taken_last (Some (Unix t)) r) (Unix t) Hd) in Hw;
      [|reflexivity].
    unfold older_than in Hw. lia.
  - intros r Hr. destruct (Hmarked r Hr) as (r' & Hr' & Hts).
    exists r'. split; [done|]. split; [done|]. intros q.
    pose proof (cond_unused_spec q d r' (Unix t) Hd Hts) as Hspec.
    unfold older_than in Hspec. split; [done|]. split.
    + intros Hq. apply Hspec. lia.
    + intros Hq. apply not_true_is_false. intros E. apply Hspec in E. lia.
Qed.

Lemma claim_cooldown_witness :
  "a" ∉ ids_of (FindCandidates
                  (MarkTakenNodes example_db no_fault (100 * second) ["a"]).2
                  no_fault (105 * second) (10 * second) 3 3 "timeout" 10).
Proof.
  refine (proj1 (claim_cooldown example_db no_fault (100 * second) "a"
                   (10 * second) eq_refl _)
            (105 * second) no_fault 3 3 "timeout" 10 _).
  - unfold negatable, int64_min, int64_max, second. lia.
  - unfold second. lia.
Defined.

(** The record was marked at second 100 and the duration is 10 seconds: at
    second 110, and half a second later, the duration has elapsed, and the
    cooldown condition is still false and the record not returned; it is
    returned at second 111. *)
Lemma claim_cooldown_counterexample :
  cond_unused (Unix (Add (110 * second) (neg_duration (10 * second))))
    (set_taken_last (Some (Unix (100 * second))) example_node) = Some false
  ∧ FindCandidates (MarkTakenNodes example_db no_fault (100 * second) ["a"]).2
      no_fault (110 * second) (10 * second) 3 3 "timeout" 10 = Ok []
  ∧ FindCandidates (MarkTakenNodes example_db no_fault (100 * second) ["a"]).2
      no_fault (110 * second + 500000000) (10 * second) 3 3 "timeout" 10 = Ok []
  ∧ FindCandidates (MarkTakenNodes example_db no_fault (100 * second) ["a"]).2
      no_fault (111 * second) (10 * second) 3 3 "timeout" 10 = Ok ["a"].
Proof. repeat split; vm_compute; reflexivity. Qed.

(** ** Find and Mark under the transaction *)

(** Whatever the outcome of [Commit], the table after [TakeCandidates] is the
    table after its [MarkTakenNodes]: the transaction holds no statement. *)
Lemma TakeCandidates_table db ctx nowFind nowMark d maxPing maxTries transientErr
    limit ids :
  ctx_begin ctx = None →
  FindCandidates db ctx nowFind d maxPing maxTries transientErr limit = Ok ids →
  (TakeCandidates db ctx nowFind nowMark d maxPing maxTries transientErr limit).2
  = (MarkTakenNodes db ctx nowMark ids).2.
Proof.
  intros Hb Hfind. unfold TakeCandidates, BeginTx. rewrite Hb, Hfind.
  destruct (MarkTakenNodes db ctx nowMark ids) as [[e|] db1]; [done|].
  unfold Commit. by destruct (ctx_commit ctx).
Qed.

Lemma TakeCandidates_commit_failure db ctx nowFind nowMark d maxPing maxTries
    transientErr limit ids e :
  ctx_begin ctx = None →
  FindCandidates db ctx nowFind d maxPing maxTries transientErr limit = Ok ids →
  (MarkTakenNodes db ctx nowMark ids).1 = None →
  ctx_commit ctx = Some e →
  TakeCandidates db ctx nowFind nowMark d maxPing maxTries transientErr limit
  = (Err (wrap_err "TakeCandidates failed to commit transaction" e),
     (MarkTakenNodes db ctx nowMark ids).2).
Proof.
  intros Hb Hfind Hmark Hc. unfold TakeCandidates, BeginTx. rewrite Hb, Hfind.
  destruct (MarkTakenNodes db ctx nowMark ids) as [[e'|] db1]; [done|].
  unfold Commit. by rewrite Hc.
Qed.

(** C1, as the code runs it.  The record ["a"] was never taken; [Commit]
    fails because the caller's context was cancelled after the Mark step.
    [TakeCandidates] returns the error and no ids, and the record is marked
    all the same: its [taken_last] went from NULL to the second of the
    call.  Likewise [TakeHandshakeCandidates] leaves [handshake_updated] and
    [handshake_err] written. *)
Theorem Take_commit_failure_leaves_marks :
  taken_last <$> example_db !! "a" = Some None
  ∧ TakeCandidates example_db ctx_commit_fails (20 * second) (20 * second)
      (10 * second) 3 3 "timeout" 5
    = (Err "TakeCandidates failed to commit transaction: context canceled",
       <["a" := set_taken_last (Some 20) example_node]> example_db)
  ∧ handshake_updated <$> example_db !! "a" = Some None
  ∧ handshake_err <$> example_db !! "a" = Some None
  ∧ TakeHandshakeCandidates example_db ctx_commit_fails (20 * second) (20 * second)
      (20 * second) (10 * second) (5 * second) 3 "timeout" 5
    = (Err "TakeHandshakeCandidates failed to commit transaction: context canceled",
       <["a" := set_handshake None (Some "taken") 0 (Some 20) example_node]>
         example_db).
Proof. repeat split; vm_compute; reflexivity. Qed.

(** The steps of [TakeCandidates], run one after the other, are the method. *)
Lemma TakeCandidates_steps_run db ctx nowFind nowMark d maxPing maxTries
    transientErr limit :
  run (TakeCandidates_steps ctx nowFind nowMark d maxPing maxTries transientErr limit)
      db
  = TakeCandidates db ctx nowFind nowMark d maxPing maxTries transientErr limit.
Proof.
  unfold TakeCandidates_steps, TakeCandidates. simpl.
  destruct (BeginTx ctx) as [tx|e]; [|done]. simpl.
  destruct (FindCandidates _ _ _ _ _ _ _ _) as [ids|e]; [|done]. simpl.
  destruct (MarkTakenNodes db ctx nowMark ids) as [[e|] db1]; [done|]. simpl.
  by destruct (Commit ctx tx db1) as [[e|] db2].
Qed.

(** Two calls one after the other hand out the record once. *)
Lemma TakeCandidates_in_turn :
  (interleave []
     (TakeCandidates_steps no_fault (20 * second) (20 * second) (10 * second)
        3 3 "timeout" 5)
     (TakeCandidates_steps no_fault (20 * second) (20 * second) (10 * second)
        3 3 "timeout" 5)
     example_db).1
  = (Ok ["a"], Ok []).
Proof. vm_compute; reflexivity. Qed.

(** C2, as the code runs it.  Two [TakeCandidates] calls with the same
    filters share the table; each has begun its transaction and run its Find
    before either runs its Mark.  No call fails, and both return the
    record ["a"]. *)
Theorem concurrent_TakeCandidates_overlap :
  (interleave [true; true; false; false]
     (TakeCandidates_steps no_fault (20 * second) (20 * second) (10 * second)
        3 3 "timeout" 5)
     (TakeCandidates_steps no_fault (20 * second) (20 * second) (10 * second)
        3 3 "timeout" 5)
     example_db).1
  = (Ok ["a"], Ok ["a"]).
Proof. vm_compute; reflexivity. Qed.

(** ** The theorems above at concrete values *)

Lemma ping_counter_algebra_witness :
  ping_try <$> Nat.iter 3 (λ d, (UpdatePingError d no_fault "a").2) example_db !! "a"
  = Some 3.
Proof.
  refine (proj1 (proj2 (proj2 (proj2 (proj2 (proj2
            (ping_counter_algebra example_db no_fault "a" example_node
               eq_refl eq_refl)))))) eq_refl 3%nat).
Defined.

Lemma UpdateClientID_resets_backoff_witness :
  FindHandshakeLastTry
    (UpdateClientID
       (Nat.iter 7 (λ d, (UpdateHandshakeError d no_fault (9 * second) "a" "timeout").2)
          example_db)
       no_fault (20 * second) "a" "foo").2 no_fault "a"
  = Ok (Some {| hasError := false; tryCount := 0;
                lastUpdated := time_Unix (Unix (20 * second)) |}).
Proof.
  destruct (UpdateClientID_resets_backoff
              (Nat.iter 7
                 (λ d, (UpdateHandshakeError d no_fault (9 * second) "a" "timeout").2)
                 example_db)
              no_fault no_fault (20 * second) "a" "foo"
              (set_handshake None (Some "timeout") 7 (Some 9) example_node)
              eq_refl eq_refl eq_refl)
    as (r' & _ & _ & _ & _ & _ & _ & H).
  exact H.
Defined.

Lemma updates_of_missing_record_witness :
  UpdatePingError example_db no_fault "zz" = (None, example_db)
  ∧ MarkTakenNodes example_db no_fault (20 * second) ["zz"] = (None, example_db).
Proof.
  pose proof (updates_of_missing_record example_db no_fault (20 * second) "zz"
                eq_refl eq_refl) as H.
  split; [exact (proj1 (proj2 H)) | exact (proj1 (proj2 (proj2 (proj2 (proj2 (proj2 (proj2 H)))))))].
Defined.

(** * Further properties of the store *)

(** ** The crawl finder *)

Lemma whereFindCandidates_spec (now : GoTime) (d : Duration)
    (maxPingTries maxHandshakeTries : Z) (transientErr : string) (r : Node) :
  negatable d → uint_fits maxPingTries → uint_fits maxHandshakeTries →
  sql_true (whereFindCandidates (Unix (Add now (neg_duration d)))
              (bind_uint maxPingTries) (bind_uint maxHandshakeTries)
              transientErr r) = true
  ↔ crawl_candidate now d maxPingTries maxHandshakeTries transientErr r.
Proof.
  intros Hd Hping Hmax. rewrite !bind_uint_fits by done.
  unfold whereFindCandidates, crawl_candidate.
  rewrite !sql_true_and, cond_compat_fork_spec, cond_handshake_try_spec, sql_true_le.
  unfold cond_unused.
  rewrite sql_true_or, sql_true_lt, sql_true_is_null.
  unfold never_taken, last_taken_older_than.
  setoid_rewrite (older_than_cutoff now d); [|done].
  tauto.
Qed.

(** X1. When the query goes through, for a duration that can be negated and
    limits below [2^63], [FindCandidates] returns at most [limit] distinct
    ids, ordered by [taken_last] with NULL first; each is the id of a record
    that was never taken or was taken longer ago than the duration, is not
    incompatible, is within the ping tries and is within the handshake tries
    or failing with the transient error; and such a record is returned
    unless [limit] ids that come no later in the order are. *)
Theorem FindCandidates_spec (db : Table) (ctx : Context) (now : GoTime)
    (minUnusedDuration : Duration) (maxPingTries maxHandshakeTries : Z)
    (transientHandshakeErr : string) (limit : Z) :
  ctx_query ctx = None → ctx_rows ctx = None →
  negatable minUnusedDuration →
  uint_fits maxPingTries → uint_fits maxHandshakeTries → uint_fits limit →
  ∃ ids,
    FindCandidates db ctx now minUnusedDuration maxPingTries maxHandshakeTries
      transientHandshakeErr limit = Ok ids
    ∧ Z.of_nat (length ids) <= limit
    ∧ NoDup ids
    ∧ ordered_by taken_last db ids
    ∧ (∀ id, id ∈ ids →
         ∃ r, db !! id = Some r
              ∧ crawl_candidate now minUnusedDuration maxPingTries
                  maxHandshakeTries transientHandshakeErr r)
    ∧ (∀ id r, db !! id = Some r →
         crawl_candidate now minUnusedDuration maxPingTries
           maxHandshakeTries transientHandshakeErr r →
         id ∈ ids
         ∨ (Z.of_nat (length ids) = limit
            ∧ ∀ id' r', id' ∈ ids → db !! id' = Some r' →
                nulls_first_le (taken_last r') (taken_last r))).
Proof.
  intros Hq Hrows Hd Hping Hmax Hlimit.
  eexists. split; [by apply FindCandidates_ok|].
  unfold sqlFindCandidates.
  set (cond := whereFindCandidates _ _ _ _).
  assert (Hcond : ∀ r, sql_true (cond r) = true
            ↔ crawl_candidate now minUnusedDuration maxPingTries
                maxHandshakeTries transientHandshakeErr r)
    by (intros r; by apply whereFindCandidates_spec).
  rewrite (bind_uint_fits limit) by done.
  assert (Hn : 0 <= limit) by apply Hlimit.
  split; [by apply select_ids_length|].
  split; [apply select_ids_NoDup|].
  split; [apply select_ids_ordered|].
  split.
  - intros id Hin. apply select_ids_sound in Hin as (r & Hr & Hc).
    exists r. split; [done|]. by apply Hcond.
  - intros id r Hr Hc. apply select_ids_complete; [done..|]. by apply Hcond.
Qed.

Lemma FindCandidates_spec_witness :
  ∃ ids,
    FindCandidates example_db no_fault (20 * second) (10 * second) 3 3 "timeout" 10
    = Ok ids
    ∧ Z.of_nat (length ids) <= 10.
Proof.
  destruct (FindCandidates_spec example_db no_fault (20 * second) (10 * second)
              3 3 "timeout" 10)
    as (ids & H1 & H2 & _);
    try reflexivity;
    try (unfold negatable, uint_fits, int64_min, int64_max, second; lia).
  exists ids. split; [exact H1 | exact H2].
Defined.

(** ** Find and Mark, one call *)

Lemma ExecContext_cases ctx stmt (db : Table) :
  (ExecContext ctx stmt db = (None, stmt db) ∧ ctx_exec ctx = None)
  ∨ (∃ e, ExecContext ctx stmt db = (Some e, db) ∧ ctx_exec ctx = Some e).
Proof. unfold ExecContext. destruct (ctx_exec ctx); eauto. Qed.

Lemma MarkTakenNodes_cases db ctx now ids :
  MarkTakenNodes db ctx now ids = (None, sqlMarkTakenNodes (Unix now) ids db)
  ∨ (∃ e, MarkTakenNodes db ctx now ids
          = (Some (wrap_err "failed to mark taken nodes" e), db)
          ∧ ctx_exec ctx = Some e ∧ ids ≠ []).
Proof.
  unfold MarkTakenNodes. destruct ids as [|id ids].
  - left. f_equal. unfold sqlMarkTakenNodes.
    by rewrite update_where_id_in_missing.
  - destruct (ExecContext_cases ctx (sqlMarkTakenNodes (Unix now) (id :: ids)) db)
      as [[-> _]|(e & -> & He)]; [by left|].
    right. exists e. done.
Qed.

Lemma MarkTakenHandshakeCandidates_cases db ctx now ids :
  MarkTakenHandshakeCandidates db ctx now ids
    = (None, sqlMarkTakenHandshakeCandidates (Unix now) ids db)
  ∨ (∃ e, MarkTakenHandshakeCandidates db ctx now ids
          = (Some (wrap_err "failed to mark taken handshake candidates" e), db)
          ∧ ctx_exec ctx = Some e ∧ ids ≠ []).
Proof.
  unfold MarkTakenHandshakeCandidates. destruct ids as [|id ids].
  - left. f_equal. unfold sqlMarkTakenHandshakeCandidates.
    by rewrite update_where_id_in_missing.
  - destruct (ExecContext_cases ctx
                (sqlMarkTakenHandshakeCandidates (Unix now) (id :: ids)) db)
      as [[-> _]|(e & -> & He)]; [by left|].
    right. exists e. done.
Qed.

(** The outcomes of [TakeCandidates], by the first call that fails. *)
Lemma TakeCandidates_cases db ctx nowFind nowMark d maxPing maxTries tag limit :
  (∃ e, ctx_begin ctx = Some e
        ∧ TakeCandidates db ctx nowFind nowMark d maxPing maxTries tag limit
          = (Err (wrap_err "TakeCandidates failed to start transaction" e), db))
  ∨ (∃ e, FindCandidates db ctx nowFind d maxPing maxTries tag limit = Err e
          ∧ TakeCandidates db ctx nowFind nowMark d maxPing maxTries tag limit
            = (Err e, db))
  ∨ (∃ ids e, FindCandidates db ctx nowFind d maxPing maxTries tag limit = Ok ids
              ∧ ctx_exec ctx = Some e ∧ ids ≠ []
              ∧ TakeCandidates db ctx nowFind nowMark d maxPing maxTries tag limit
                = (Err (wrap_err "failed to mark taken nodes" e), db))
  ∨ (∃ ids e, FindCandidates db ctx nowFind d maxPing maxTries tag limit = Ok ids
              ∧ ctx_commit ctx = Some e
              ∧ TakeCandidates db ctx nowFind nowMark d maxPing maxTries tag limit
                = (Err (wrap_err "TakeCandidates failed to commit transaction" e),
                   sqlMarkTakenNodes (Unix nowMark) ids db))
  ∨ (∃ ids, FindCandidates db ctx nowFind d maxPing maxTries tag limit = Ok ids
            ∧ TakeCandidates db ctx nowFind nowMark d maxPing maxTries tag limit
              = (Ok ids, sqlMarkTakenNodes (Unix nowMark) ids db)).
Proof.
  unfold TakeCandidates, BeginTx.
  destruct (ctx_begin ctx) as [e|]; [left; eauto|]. right.
  destruct (FindCandidates _ _ _ _ _ _ _ _) as [ids|e]; [|left; eauto]. right.
  destruct (MarkTakenNodes_cases db ctx nowMark ids) as [->|(e & -> & He & Hne)];
    [|left; unfold Rollback; eauto 10]. right.
  unfold Commit. simpl. destruct (ctx_commit ctx) as [e|]; [left|right]; eauto 10.
Qed.

Lemma TakeHandshakeCandidates_cases db ctx nowFind1 nowFind2 nowMark okD errD maxTries
    tag limit :
  (∃ e, ctx_begin ctx = Some e
        ∧ TakeHandshakeCandidates db ctx nowFind1 nowFind2 nowMark okD errD
            maxTries tag limit
          = (Err (wrap_err "TakeHandshakeCandidates failed to start transaction" e),
             db))
  ∨ (∃ e, FindHandshakeCandidates db ctx nowFind1 nowFind2 okD errD maxTries tag
            limit = Err e
          ∧ TakeHandshakeCandidates db ctx nowFind1 nowFind2 nowMark okD errD
              maxTries tag limit = (Err e, db))
  ∨ (∃ ids e, FindHandshakeCandidates db ctx nowFind1 nowFind2 okD errD maxTries
                tag limit = Ok ids
              ∧ ctx_exec ctx = Some e ∧ ids ≠ []
              ∧ TakeHandshakeCandidates db ctx nowFind1 nowFind2 nowMark okD errD
                  maxTries tag limit
                = (Err (wrap_err "failed to mark taken handshake candidates" e), db))
  ∨ (∃ ids e, FindHandshakeCandidates db ctx nowFind1 nowFind2 okD errD maxTries
                tag limit = Ok ids
              ∧ ctx_commit ctx = Some e
              ∧ TakeHandshakeCandidates db ctx nowFind1 nowFind2 nowMark okD errD
                  maxTries tag limit
                = (Err (wrap_err
                          "TakeHandshakeCandidates failed to commit transaction" e),
                   sqlMarkTakenHandshakeCandidates (Unix nowMark) ids db))
  ∨ (∃ ids, FindHandshakeCandidates db ctx nowFind1 nowFind2 okD errD maxTries
              tag limit = Ok ids
            ∧ TakeHandshakeCandidates db ctx nowFind1 nowFind2 nowMark okD errD
                maxTries tag limit
              = (Ok ids, sqlMarkTakenHandshakeCandidates (Unix nowMark) ids db)).
Proof.
  unfold TakeHandshakeCandidates, BeginTx.
  destruct (ctx_begin ctx) as [e|]; [left; eauto|]. right.
  destruct (FindHandshakeCandidates _ _ _ _ _ _ _ _ _) as [ids|e]; [|left; eauto].
  right.
  destruct (MarkTakenHandshakeCandidates_cases db ctx nowMark ids)
    as [->|(e & -> & He & Hne)]; [|left; unfold Rollback; eauto 10]. right.
  unfold Commit. simpl. destruct (ctx_commit ctx) as [e|]; [left|right]; eauto 10.
Qed.

(** X2. When [Commit] cannot fail, a [TakeCandidates] or
    [TakeHandshakeCandidates] call that returns an error has left the table
    as it was: a failure of [BeginTx], of the Find step or of the Mark step
    writes nothing. *)
Theorem Take_error_without_commit_failure (db : Table) (ctx : Context) :
  ctx_commit ctx = None →
  (∀ nowFind nowMark d maxPing maxTries tag limit e,
     (TakeCandidates db ctx nowFind nowMark d maxPing maxTries tag limit).1 = Err e →
     (TakeCandidates db ctx nowFind nowMark d maxPing maxTries tag limit).2 = db)
  ∧ (∀ nowFind1 nowFind2 nowMark okD errD maxTries tag limit e,
       (TakeHandshakeCandidates db ctx nowFind1 nowFind2 nowMark okD errD maxTries
          tag limit).1 = Err e →
       (TakeHandshakeCandidates db ctx nowFind1 nowFind2 nowMark okD errD maxTries
          tag limit).2 = db).
Proof.
  intros Hc. split; intros.
  - destruct (TakeCandidates_cases db ctx nowFind nowMark d maxPing maxTries tag limit)
      as [(?&?&E)|[(?&?&E)|[(?&?&?&?&?&E)|[(?&?&?&?&E)|(?&?&E)]]]];
      rewrite E in *; simpl in *; congruence.
  - destruct (TakeHandshakeCandidates_cases db ctx nowFind1 nowFind2 nowMark okD errD
                maxTries tag limit)
      as [(?&?&E)|[(?&?&E)|[(?&?&?&?&?&E)|[(?&?&?&?&E)|(?&?&E)]]]];
      rewrite E in *; simpl in *; congruence.
Qed.

Lemma Take_error_without_commit_failure_witness :
  (TakeCandidates example_db ctx_busy (20 * second) (20 * second) (10 * second)
     3 3 "timeout" 5).2 = example_db.
Proof.
  refine (proj1 (Take_error_without_commit_failure example_db ctx_busy eq_refl)
            (20 * second) (20 * second) (10 * second) 3 3 "timeout" 5 _ _).
  vm_compute. reflexivity.
Defined.

(** X3. When [TakeCandidates] returns ids, they are the ids its Find step
    returned, each of them has [taken_last] at the second of the Mark step
    and its other columns as before, and the records of all other ids are as
    before; with no ids the table is unchanged.  Likewise for
    [TakeHandshakeCandidates], which writes [handshake_updated] and the
    error ['taken']. *)
Theorem Take_ok_marks_exactly_the_found (db : Table) (ctx : Context) :
  (∀ nowFind nowMark d maxPing maxTries tag limit ids db',
     TakeCandidates db ctx nowFind nowMark d maxPing maxTries tag limit
       = (Ok ids, db') →
     FindCandidates db ctx nowFind d maxPing maxTries tag limit = Ok ids
     ∧ (ids = [] → db' = db)
     ∧ ∀ id,
         db' !! id
         = (λ r, if bool_decide (id ∈ ids)
                 then set_taken_last (Some (Unix nowMark)) r else r) <$> db !! id)
  ∧ (∀ nowFind1 nowFind2 nowMark okD errD maxTries tag limit ids db',
       TakeHandshakeCandidates db ctx nowFind1 nowFind2 nowMark okD errD maxTries
         tag limit = (Ok ids, db') →
       FindHandshakeCandidates db ctx nowFind1 nowFind2 okD errD maxTries tag limit
         = Ok ids
       ∧ (ids = [] → db' = db)
       ∧ ∀ id,
           db' !! id
           = (λ r, if bool_decide (id ∈ ids)
                   then set_handshake (client_id r) (Some "taken") (handshake_try r)
                          (Some (Unix nowMark)) r
                   else r) <$> db !! id).
Proof.
  split; intros.
  - destruct (TakeCandidates_cases db ctx nowFind nowMark d maxPing maxTries tag limit)
      as [(?&?&E)|[(?&?&E)|[(?&?&?&?&?&E)|[(?&?&?&?&E)|(ids'&Hf&E)]]]];
      rewrite E in *; simplify_eq.
    split; [done|]. split.
    + intros ->. unfold sqlMarkTakenNodes. by rewrite update_where_id_in_missing.
    + intros id. unfold sqlMarkTakenNodes. apply update_where_id_in_lookup.
  - destruct (TakeHandshakeCandidates_cases db ctx nowFind1 nowFind2 nowMark okD errD
                maxTries tag limit)
      as [(?&?&E)|[(?&?&E)|[(?&?&?&?&?&E)|[(?&?&?&?&E)|(ids'&Hf&E)]]]];
      rewrite E in *; simplify_eq.
    split; [done|]. split.
    + intros ->. unfold sqlMarkTakenHandshakeCandidates.
      by rewrite update_where_id_in_missing.
    + intros id. unfold sqlMarkTakenHandshakeCandidates.
      apply update_where_id_in_lookup.
Qed.

Lemma Take_ok_marks_exactly_the_found_witness :
  FindCandidates example_db no_fault (20 * second) (10 * second) 3 3 "timeout" 5
  = Ok ["a"].
Proof.
  refine (proj1 (proj1 (Take_ok_marks_exactly_the_found example_db no_fault)
                   (20 * second) (20 * second) (10 * second) 3 3 "timeout" 5
                   ["a"] (<["a" := set_taken_last (Some 20) example_node]> example_db)
                   _)).
  vm_compute. reflexivity.
Defined.

(** ** Calls one after the other *)

Lemma TakeCandidates_ids_found db ctx nowFind nowMark d maxPing maxTries tag limit id :
  id ∈ ids_of (TakeCandidates db ctx nowFind nowMark d maxPing maxTries tag limit).1 →
  id ∈ ids_of (FindCandidates db ctx nowFind d maxPing maxTries tag limit).
Proof.
  destruct (TakeCandidates_cases db ctx nowFind nowMark d maxPing maxTries tag limit)
    as [(?&?&E)|[(?&?&E)|[(?&?&?&?&?&E)|[(?&?&?&?&E)|(ids&Hf&E)]]]];
    rewrite E; simpl; try (by intros ?%elem_of_nil).
  by rewrite Hf.
Qed.

Lemma TakeHandshakeCandidates_ids_found db ctx nowFind1 nowFind2 nowMark okD errD
    maxTries tag limit id :
  id ∈ ids_of (TakeHandshakeCandidates db ctx nowFind1 nowFind2 nowMark okD errD
                 maxTries tag limit).1 →
  id ∈ ids_of (FindHandshakeCandidates db ctx nowFind1 nowFind2 okD errD maxTries
                 tag limit).
Proof.
  destruct (TakeHandshakeCandidates_cases db ctx nowFind1 nowFind2 nowMark okD errD
              maxTries tag limit)
    as [(?&?&E)|[(?&?&E)|[(?&?&?&?&?&E)|[(?&?&?&?&E)|(ids&Hf&E)]]]];
    rewrite E; simpl; try (by intros ?%elem_of_nil).
  by rewrite Hf.
Qed.

(** A record marked at [t] fails the cooldown condition at every instant
    before [t + d]. *)
Lemma cond_unused_marked (q t : GoTime) (d : Duration) (r : Node) :
  negatable d → q < t + d →
  taken_last r = Some (Unix t) →
  sql_true (cond_unused (Unix (Add q (neg_duration d))) r) = false.
Proof.
  intros Hd Hq Hts. apply not_true_is_false. intros Hc.
  apply (cond_unused_spec q d r (Unix t) Hd Hts) in Hc.
  unfold older_than in Hc. pose proof (Unix_bounds t). lia.
Qed.

(** A record that carries an error written at [t] fails the handshake
    quiet-period condition at every instant before [t + errD]. *)
Lemma cond_handshake_unused_marked (q t : GoTime) (okBefore : Z) (errD : Duration)
    (r : Node) :
  negatable errD → q < t + errD →
  handshake_updated r = Some (Unix t) →
  is_Some (handshake_err r) →
  sql_true (cond_handshake_unused okBefore (Unix (Add q (neg_duration errD))) r)
  = false.
Proof.
  intros Hd Hq Hts [e He]. apply not_true_is_false. unfold cond_handshake_unused.
  rewrite !sql_true_or, !sql_true_and, !sql_true_lt, !sql_true_is_null, Hts, He.
  intros [[?|[_ ?]]|[(x & [= <-] & Hlt) _]]; try done.
  apply (older_than_cutoff q errD (Unix t) Hd) in Hlt.
  unfold older_than in Hlt. pose proof (Unix_bounds t). lia.
Qed.

(** X4. Two [TakeCandidates] calls one after the other: when the first
    returned ids and the second runs its Find step less than its
    [minUnusedDuration] after the first ran its Mark step, the second
    returns none of the ids of the first, whatever its other arguments and
    its outcome. *)
Theorem TakeCandidates_twice_disjoint (db db1 : Table) (ctx1 ctx2 : Context)
    (nowFind1 nowMark1 nowFind2 nowMark2 : GoTime) (d1 d2 : Duration)
    (maxPing1 maxTries1 maxPing2 maxTries2 : Z) (tag1 tag2 : string)
    (limit1 limit2 : Z) (ids1 : list NodeID) :
  TakeCandidates db ctx1 nowFind1 nowMark1 d1 maxPing1 maxTries1 tag1 limit1
    = (Ok ids1, db1) →
  negatable d2 →
  nowFind2 < nowMark1 + d2 →
  ∀ id, id ∈ ids1 →
    id ∉ ids_of (TakeCandidates db1 ctx2 nowFind2 nowMark2 d2 maxPing2 maxTries2
                   tag2 limit2).1.
Proof.
  intros Htake Hd Hq id Hin Hin2.
  destruct (TakeCandidates_cases db ctx1 nowFind1 nowMark1 d1 maxPing1 maxTries1
              tag1 limit1)
    as [(?&?&E)|[(?&?&E)|[(?&?&?&?&?&E)|[(?&?&?&?&E)|(ids&Hf&E)]]]];
    rewrite E in Htake; simplify_eq.
  assert (Hin1 : id ∈ ids_of (FindCandidates db ctx1 nowFind1 d1 maxPing1 maxTries1
                                tag1 limit1)) by (by rewrite Hf).
  apply FindCandidates_sound in Hin1 as (r & Hr & _).
  apply TakeCandidates_ids_found, FindCandidates_sound in Hin2 as (r' & Hr' & Hw).
  unfold sqlMarkTakenNodes in Hr'.
  rewrite update_where_id_in_lookup, Hr in Hr'. simpl in Hr'.
  rewrite bool_decide_eq_true_2 in Hr' by done. injection Hr' as <-.
  unfold whereFindCandidates in Hw. rewrite !sql_true_and in Hw.
  destruct Hw as [[[Hw _] _] _].
  by rewrite (cond_unused_marked nowFind2 nowMark1 d2) in Hw.
Qed.

Lemma TakeCandidates_twice_disjoint_witness :
  "a" ∉ ids_of (TakeCandidates
                  (<["a" := set_taken_last (Some 20) example_node]> example_db)
                  no_fault (25 * second) (25 * second) (10 * second) 3 3
                  "timeout" 5).1.
Proof.
  refine (TakeCandidates_twice_disjoint example_db _ no_fault no_fault
            (20 * second) (20 * second) (25 * second) (25 * second)
            (10 * second) (10 * second) 3 3 3 3 "timeout" "timeout" 5 5 ["a"]
            _ _ _ "a" _).
  - vm_compute. reflexivity.
  - unfold negatable, int64_min, int64_max, second. lia.
  - unfold second. lia.
  - apply list_elem_of_singleton. reflexivity.
Defined.

(** X5. Two [TakeHandshakeCandidates] calls one after the other: the ids
    the first returned carry the error ['taken'], and the second returns none
    of them when the second reading of the clock in its Find step comes
    less than its [minUnusedErrDuration] after the Mark step of the first.
    The duration for successful handshakes plays no part. *)
Theorem TakeHandshakeCandidates_twice_disjoint (db db1 : Table) (ctx1 ctx2 : Context)
    (nowFind1 nowFind1' nowMark1 nowFind2 nowFind2' nowMark2 : GoTime)
    (okD1 errD1 okD2 errD2 : Duration) (maxTries1 maxTries2 : Z)
    (tag1 tag2 : string) (limit1 limit2 : Z) (ids1 : list NodeID) :
  TakeHandshakeCandidates db ctx1 nowFind1 nowFind1' nowMark1 okD1 errD1 maxTries1
    tag1 limit1 = (Ok ids1, db1) →
  negatable errD2 →
  nowFind2' < nowMark1 + errD2 →
  ∀ id, id ∈ ids1 →
    id ∉ ids_of (TakeHandshakeCandidates db1 ctx2 nowFind2 nowFind2' nowMark2
                   okD2 errD2 maxTries2 tag2 limit2).1.
Proof.
  intros Htake Hd Hq id Hin Hin2.
  destruct (TakeHandshakeCandidates_cases db ctx1 nowFind1 nowFind1' nowMark1 okD1
              errD1 maxTries1 tag1 limit1)
    as [(?&?&E)|[(?&?&E)|[(?&?&?&?&?&E)|[(?&?&?&?&E)|(ids&Hf&E)]]]];
    rewrite E in Htake; simplify_eq.
  assert (Hin1 : id ∈ ids_of (FindHandshakeCandidates db ctx1 nowFind1 nowFind1'
                                okD1 errD1 maxTries1 tag1 limit1))
    by (by rewrite Hf).
  apply FindHandshakeCandidates_sound in Hin1 as (r & Hr & _).
  apply TakeHandshakeCandidates_ids_found, FindHandshakeCandidates_sound in Hin2
    as (r' & Hr' & Hw).
  unfold sqlMarkTakenHandshakeCandidates in Hr'.
  rewrite update_where_id_in_lookup, Hr in Hr'. simpl in Hr'.
  rewrite bool_decide_eq_true_2 in Hr' by done. injection Hr' as <-.
  unfold whereFindHandshakeCandidates in Hw. rewrite !sql_true_and in Hw.
  destruct Hw as [[Hw _] _].
  rewrite (cond_handshake_unused_marked nowFind2' nowMark1) in Hw; done.
Qed.

Lemma TakeHandshakeCandidates_twice_disjoint_witness :
  "a" ∉ ids_of (TakeHandshakeCandidates
                  (<["a" := set_handshake None (Some "taken") 0 (Some 20)
                              example_node]> example_db)
                  no_fault (25 * second) (25 * second) (25 * second)
                  (1 * second) (10 * second) 3 "timeout" 5).1.
Proof.
  refine (TakeHandshakeCandidates_twice_disjoint example_db _ no_fault no_fault
            (20 * second) (20 * second) (20 * second)
            (25 * second) (25 * second) (25 * second)
            (1 * second) (10 * second) (1 * second) (10 * second) 3 3
            "timeout" "timeout" 5 5 ["a"] _ _ _ "a" _).
  - vm_compute. reflexivity.
  - unfold negatable, int64_min, int64_max, second. lia.
  - unfold second. lia.
  - apply list_elem_of_singleton. reflexivity.
Defined.

(** ** What one call does to the rows *)

Lemma update_where_id_lookup_cases f i (t : Table) id r' :
  update_where_id f i t !! id = Some r' →
  t !! id = Some r' ∨ ∃ r, t !! id = Some r ∧ r' = f r.
Proof.
  destruct (decide (i = id)) as [->|Hne].
  - rewrite update_where_id_lookup. destruct (t !! id) as [r|]; simpl; [|done].
    intros [= <-]. eauto.
  - rewrite update_where_id_lookup_ne by done. auto.
Qed.

Lemma update_where_id_in_lookup_cases f ids (t : Table) id r' :
  update_where_id_in f ids t !! id = Some r' →
  t !! id = Some r' ∨ ∃ r, t !! id = Some r ∧ r' = f r.
Proof.
  rewrite update_where_id_in_lookup. destruct (t !! id) as [r|]; simpl; [|done].
  case_bool_decide; intros [= <-]; eauto.
Qed.

Lemma ExecContext_table ctx stmt (db : Table) :
  (ExecContext ctx stmt db).2 = db ∨ (ExecContext ctx stmt db).2 = stmt db.
Proof. unfold ExecContext. destruct (ctx_exec ctx); auto. Qed.

Lemma MarkTakenNodes_table db ctx now ids :
  (MarkTakenNodes db ctx now ids).2 = db
  ∨ (MarkTakenNodes db ctx now ids).2 = sqlMarkTakenNodes (Unix now) ids db.
Proof.
  destruct (MarkTakenNodes_cases db ctx now ids) as [->|(e & -> & _)]; auto.
Qed.

Lemma MarkTakenHandshakeCandidates_table db ctx now ids :
  (MarkTakenHandshakeCandidates db ctx now ids).2 = db
  ∨ (MarkTakenHandshakeCandidates db ctx now ids).2
    = sqlMarkTakenHandshakeCandidates (Unix now) ids db.
Proof.
  destruct (MarkTakenHandshakeCandidates_cases db ctx now ids)
    as [->|(e & -> & _)]; auto.
Qed.

Lemma TakeCandidates_table_cases db ctx nowFind nowMark d maxPing maxTries tag limit :
  (TakeCandidates db ctx nowFind nowMark d maxPing maxTries tag limit).2 = db
  ∨ ∃ ids, FindCandidates db ctx nowFind d maxPing maxTries tag limit = Ok ids
           ∧ (TakeCandidates db ctx nowFind nowMark d maxPing maxTries tag limit).2
             = sqlMarkTakenNodes (Unix nowMark) ids db.
Proof.
  destruct (TakeCandidates_cases db ctx nowFind nowMark d maxPing maxTries tag limit)
    as [(?&?&E)|[(?&?&E)|[(?&?&?&?&?&E)|[(?&?&?&?&E)|(?&?&E)]]]];
    rewrite E; simpl; eauto.
Qed.

Lemma TakeHandshakeCandidates_table_cases db ctx nowFind1 nowFind2 nowMark okD errD
    maxTries tag limit :
  (TakeHandshakeCandidates db ctx nowFind1 nowFind2 nowMark okD errD maxTries tag
     limit).2 = db
  ∨ ∃ ids, FindHandshakeCandidates db ctx nowFind1 nowFind2 okD errD maxTries tag
             limit = Ok ids
           ∧ (TakeHandshakeCandidates db ctx nowFind1 nowFind2 nowMark okD errD
                maxTries tag limit).2
             = sqlMarkTakenHandshakeCandidates (Unix nowMark) ids db.
Proof.
  destruct (TakeHandshakeCandidates_cases db ctx nowFind1 nowFind2 nowMark okD errD
              maxTries tag limit)
    as [(?&?&E)|[(?&?&E)|[(?&?&?&?&?&E)|[(?&?&?&?&E)|(?&?&E)]]]];
    rewrite E; simpl; eauto.
Qed.

(** A row of the table after a call is a row that was there, the row that
    [UpsertNodeAddr] creates, or a row that was there under one update. *)
Lemma exec_op_lookup IP_String op ctx (db : Table) id r' :
  exec_op IP_String op ctx db !! id = Some r' →
  db !! id = Some r'
  ∨ (∃ now addr, db !! id = None ∧ r' = upsert_new IP_String now addr)
  ∨ (∃ r, db !! id = Some r ∧ row_update IP_String r r').
Proof.
  destruct op; simpl;
    unfold UpsertNodeAddr, ResetPingError, UpdatePingError, UpdateClientID,
      UpdateHandshakeError, UpdateForkCompatibility, UpdateNeighborBucketKeys.
  - (* UpsertNodeAddr *)
    match goal with |- context [ExecContext ?c ?s ?d] =>
      destruct (ExecContext_table c s d) as [E|E];
      destruct (ExecContext c s d) as [[?|] ?]; simpl in *; subst end; auto.
    all: unfold sqlUpsertNodeAddr;
      destruct (decide (id0 = id)) as [->|Hne];
      [ destruct (db !! id) as [r|] eqn:Hr; rewrite lookup_insert_eq;
        intros [= <-]; right;
        [ right; exists r; split; [done|]; apply ru_addr
        | left; exists now, addr; done ]
      | destruct (db !! id0); rewrite lookup_insert_ne by done; auto ].
  - match goal with |- context [ExecContext ?c ?s ?d] =>
      destruct (ExecContext_table c s d) as [E|E];
      destruct (ExecContext c s d) as [[?|] ?]; simpl in *; subst end; auto.
    all: intros [?|(r & ? & ->)]%update_where_id_lookup_cases; auto;
      right; right; exists r; split; [done|]; constructor.
  - match goal with |- context [ExecContext ?c ?s ?d] =>
      destruct (ExecContext_table c s d) as [E|E];
      destruct (ExecContext c s d) as [[?|] ?]; simpl in *; subst end; auto.
    all: intros [?|(r & ? & ->)]%update_where_id_lookup_cases; auto;
      right; right; exists r; split; [done|]; constructor.
  - match goal with |- context [ExecContext ?c ?s ?d] =>
      destruct (ExecContext_table c s d) as [E|E];
      destruct (ExecContext c s d) as [[?|] ?]; simpl in *; subst end; auto.
    all: intros [?|(r & ? & ->)]%update_where_id_lookup_cases; auto;
      right; right; exists r; split; [done|]; constructor.
  - match goal with |- context [ExecContext ?c ?s ?d] =>
      destruct (ExecContext_table c s d) as [E|E];
      destruct (ExecContext c s d) as [[?|] ?]; simpl in *; subst end; auto.
    all: intros [?|(r & ? & ->)]%update_where_id_lookup_cases; auto;
      right; right; exists r; split; [done|]; constructor.
  - destruct (MarkTakenHandshakeCandidates_table db ctx now ids) as [->| ->]; auto.
    intros [?|(r & ? & ->)]%update_where_id_in_lookup_cases; auto.
    right; right; exists r; split; [done|]; constructor.
  - destruct (TakeHandshakeCandidates_table_cases db ctx nowFind1 nowFind2 nowMark
                minUnusedOKDuration minUnusedErrDuration maxHandshakeTries
                transientErr limit) as [->|(ids & _ & ->)]; auto.
    intros [?|(r & ? & ->)]%update_where_id_in_lookup_cases; auto.
    right; right; exists r; split; [done|]; constructor.
  - match goal with |- context [ExecContext ?c ?s ?d] =>
      destruct (ExecContext_table c s d) as [E|E];
      destruct (ExecContext c s d) as [[?|] ?]; simpl in *; subst end; auto.
    all: intros [?|(r & ? & ->)]%update_where_id_lookup_cases; auto;
      right; right; exists r; split; [done|]; constructor.
  - match goal with |- context [ExecContext ?c ?s ?d] =>
      destruct (ExecContext_table c s d) as [E|E];
      destruct (ExecContext c s d) as [[?|] ?]; simpl in *; subst end; auto.
    all: intros [?|(r & ? & ->)]%update_where_id_lookup_cases; auto;
      right; right; exists r; split; [done|]; constructor.
  - destruct (MarkTakenNodes_table db ctx now ids) as [->| ->]; auto.
    intros [?|(r & ? & ->)]%update_where_id_in_lookup_cases; auto.
    right; right; exists r; split; [done|]; constructor.
  - destruct (TakeCandidates_table_cases db ctx nowFind nowMark minUnusedDuration
                maxPingTries maxHandshakeTries transientHandshakeErr limit)
      as [->|(ids & _ & ->)]; auto.
    intros [?|(r & ? & ->)]%update_where_id_in_lookup_cases; auto.
    right; right; exists r; split; [done|]; constructor.
Qed.

(** ** What every history keeps *)

Lemma exec_op_keeps IP_String op ctx (db : Table) id :
  is_Some (db !! id) → is_Some (exec_op IP_String op ctx db !! id).
Proof.
  rewrite <- !elem_of_dom. intros Hin.
  assert (Hsub : dom db ⊆ dom (exec_op IP_String op ctx db)); [|set_solver].
  destruct op; simpl.
  - unfold UpsertNodeAddr.
    match goal with |- context [ExecContext ?c ?s ?d] =>
      destruct (ExecContext_table c s d) as [E|E];
      destruct (ExecContext c s d) as [[?|] ?]; simpl in *; subst end; try done.
    all: unfold sqlUpsertNodeAddr; destruct (db !! id0);
      rewrite dom_insert_L; set_solver.
  - by rewrite (proj1 (single_row_updates_dom db ctx 0 id0)).
  - by rewrite (proj1 (proj2 (single_row_updates_dom db ctx 0 id0))).
  - by rewrite (proj1 (proj2 (proj2 (single_row_updates_dom db ctx now id0)))).
  - by rewrite (proj1 (proj2 (proj2 (proj2 (single_row_updates_dom db ctx now id0))))).
  - by rewrite MarkTakenHandshakeCandidates_dom.
  - destruct (TakeHandshakeCandidates_table_cases db ctx nowFind1 nowFind2 nowMark
                minUnusedOKDuration minUnusedErrDuration maxHandshakeTries
                transientErr limit) as [->|(ids & _ & ->)]; [done|].
    unfold sqlMarkTakenHandshakeCandidates. by rewrite update_where_id_in_dom.
  - by rewrite (proj1 (proj2 (proj2 (proj2 (proj2
                 (single_row_updates_dom db ctx now id0)))))).
  - by rewrite (proj2 (proj2 (proj2 (proj2 (proj2
                 (single_row_updates_dom db ctx 0 id0)))))).
  - by rewrite MarkTakenNodes_dom.
  - destruct (TakeCandidates_table_cases db ctx nowFind nowMark minUnusedDuration
                maxPingTries maxHandshakeTries transientHandshakeErr limit)
      as [->|(ids & _ & ->)]; [done|].
    unfold sqlMarkTakenNodes. by rewrite update_where_id_in_dom.
Qed.

(** X6. One call of any writing method, whatever its arguments and its
    outcome, removes no record, and leaves each of the two counters of a
    record where it was, at 0, or one higher. *)
Theorem counters_move_by_reset_or_one (IP_String : list byte → string) (op : Op)
    (ctx : Context) (db : Table) (id : NodeID) (r : Node) :
  db !! id = Some r →
  ∃ r', exec_op IP_String op ctx db !! id = Some r'
        ∧ (ping_try r' = ping_try r ∨ ping_try r' = 0
           ∨ ping_try r' = ping_try r + 1)
        ∧ (handshake_try r' = handshake_try r ∨ handshake_try r' = 0
           ∨ handshake_try r' = handshake_try r + 1).
Proof.
  intros Hr.
  destruct (exec_op_keeps IP_String op ctx db id) as [r' Hr']; [by eexists|].
  exists r'. split; [done|].
  apply exec_op_lookup in Hr' as [Hr'|[(? & ? & Hnone & _)|(r0 & Hr0 & Hupd)]].
  - assert (r' = r) as -> by congruence. auto.
  - congruence.
  - assert (r0 = r) as -> by congruence.
    destruct Hupd; simpl; auto.
Qed.

Lemma counters_move_by_reset_or_one_witness :
  ∃ r', exec_op example_IP_String (OpUpdatePingError "a") no_fault example_db !! "a"
        = Some r'
        ∧ (ping_try r' = ping_try example_node ∨ ping_try r' = 0
           ∨ ping_try r' = ping_try example_node + 1)
        ∧ (handshake_try r' = handshake_try example_node ∨ handshake_try r' = 0
           ∨ handshake_try r' = handshake_try example_node + 1).
Proof.
  exact (counters_move_by_reset_or_one example_IP_String (OpUpdatePingError "a")
           no_fault example_db "a" example_node eq_refl).
Defined.

Lemma row_update_state_ok IP_String r r' :
  row_update IP_String r r' → row_state_ok r → row_state_ok r'.
Proof.
  intros Hupd [H1 H2 H3 H4 H5 H6].
  destruct Hupd; constructor; simpl; try done; try lia;
    try (intros; discriminate); try (split; intros; discriminate).
  - destruct isCompatFork; simpl; auto.
Qed.

Lemma upsert_new_state_ok IP_String now addr :
  row_state_ok (upsert_new IP_String now addr).
Proof. constructor; simpl; try done; auto. Qed.

Lemma port_arg_beside_ip (ip : option string) (port : Z) :
  port_beside_ip ip (port_arg ip port).
Proof.
  intros p. unfold port_arg. destruct ip as [a|]; [|done].
  destruct (Z.eqb_spec port 0); [done|]. intros [= <-]. eauto.
Qed.

Lemma row_update_addr_ok IP_String r r' :
  row_update IP_String r r' → row_addr_ok r → row_addr_ok r'.
Proof.
  intros Hupd [H1 H2 H3 H4].
  destruct Hupd; constructor; simpl; try done; apply port_arg_beside_ip.
Qed.

Lemma upsert_new_addr_ok IP_String now addr :
  row_addr_ok (upsert_new IP_String now addr).
Proof. constructor; simpl; apply port_arg_beside_ip. Qed.

(** A property of rows that the new row has and every update keeps holds
    of all rows after a history. *)
Lemma run_ops_rows (P : Node → Prop) IP_String calls (db : Table) :
  (∀ now addr, P (upsert_new IP_String now addr)) →
  (∀ r r', row_update IP_String r r' → P r → P r') →
  (∀ id r, db !! id = Some r → P r) →
  ∀ id r, run_ops IP_String calls db !! id = Some r → P r.
Proof.
  intros Hnew Hupd. revert db.
  induction calls as [|[op ctx] calls IH]; intros db Hdb id r; simpl; [apply Hdb|].
  apply IH. clear id r. intros id r Hr.
  apply exec_op_lookup in Hr as [Hr|[(now & addr & _ & ->)|(r0 & Hr0 & Hu)]]; eauto.
Qed.

(** X7. After any history of calls on an empty table, under any contexts,
    every record has counters that are not negative; has a handshake try
    count of 0 and no error and no client id when it was never attempted;
    has a try count of 0 when it carries no error; and has a fork flag that
    is NULL, 0 or 1, NULL exactly when its timestamp is. *)
Theorem history_keeps_row_state (IP_String : list byte → string)
    (calls : list (Op * Context)) (id : NodeID) (r : Node) :
  run_ops IP_String calls ∅ !! id = Some r → row_state_ok r.
Proof.
  apply (run_ops_rows row_state_ok).
  - apply upsert_new_state_ok.
  - apply row_update_state_ok.
  - intros ? ?. by rewrite lookup_empty.
Qed.

Lemma history_keeps_row_state_witness :
  ∃ r, run_ops example_IP_String example_history ∅ !! "a" = Some r
       ∧ row_state_ok r ∧ handshake_try r = 2.
Proof.
  eexists. split; [vm_compute; reflexivity|]. split; [|reflexivity].
  apply (history_keeps_row_state example_IP_String example_history "a").
  vm_compute. reflexivity.
Defined.

(** X8. After any history of calls on an empty table, every stored port
    stands beside the IP of its stack and is not 0: no record holds a port
    without an address. *)
Theorem history_keeps_ports_beside_ip (IP_String : list byte → string)
    (calls : list (Op * Context)) (id : NodeID) (r : Node) :
  run_ops IP_String calls ∅ !! id = Some r → row_addr_ok r.
Proof.
  apply (run_ops_rows row_addr_ok).
  - apply upsert_new_addr_ok.
  - apply row_update_addr_ok.
  - intros ? ?. by rewrite lookup_empty.
Qed.

Lemma history_keeps_ports_beside_ip_witness :
  ∃ r, run_ops example_IP_String example_history ∅ !! "b" = Some r
       ∧ row_addr_ok r ∧ ip_v6_port_rlpx r = None.
Proof.
  eexists. split; [vm_compute; reflexivity|]. split; [|reflexivity].
  apply (history_keeps_ports_beside_ip example_IP_String example_history "b").
  vm_compute. reflexivity.
Defined.



(** ** Frame *)

(** X10. A call writes only the records of the ids it names: the single id
    of an update, the ids listed for a Mark, the ids that the Find step of a
    Take returned.  Every other record is as before, whatever the outcome of
    the call. *)
Theorem untouched_records_unchanged (IP_String : list byte → string) (op : Op)
    (ctx : Context) (db : Table) (id : NodeID) :
  id ∉ touched op ctx db →
  exec_op IP_String op ctx db !! id = db !! id.
Proof.
  intros Hid.
  assert (Hone : ∀ f i, i ≠ id → ∀ c,
            (ExecContext c (update_where_id f i) db).2 !! id = db !! id).
  { intros f i Hne c.
    destruct (ExecContext_table c (update_where_id f i) db) as [->| ->]; [done|].
    by apply update_where_id_lookup_ne. }
  assert (Hmany : ∀ f ids, id ∉ ids → update_where_id_in f ids db !! id = db !! id).
  { intros f ids Hnin. rewrite update_where_id_in_lookup.
    rewrite bool_decide_eq_false_2 by done. by destruct (db !! id). }
  destruct op; simpl in *;
    try (assert (id0 ≠ id) by (intros ->; apply Hid, list_elem_of_singleton; done));
    unfold UpsertNodeAddr, ResetPingError, UpdatePingError, UpdateClientID,
      UpdateHandshakeError, UpdateForkCompatibility, UpdateNeighborBucketKeys.
  - match goal with |- context [ExecContext ?c ?s ?d] =>
      destruct (ExecContext_table c s d) as [E|E];
      destruct (ExecContext c s d) as [[?|] ?]; simpl in *; subst end; try done.
    all: unfold sqlUpsertNodeAddr; destruct (db !! id0);
      by rewrite lookup_insert_ne.
  - match goal with |- context [ExecContext ?c (sqlResetPingError ?i) ?d] =>
      pose proof (Hone (set_ping_try 0) i ltac:(done) c) as E;
      unfold sqlResetPingError;
      by destruct (ExecContext c _ d) as [[?|] ?] end.
  - match goal with |- context [ExecContext ?c (sqlUpdatePingError ?i) ?d] =>
      pose proof (Hone (λ r, set_ping_try (ping_try r + 1) r) i ltac:(done) c) as E;
      unfold sqlUpdatePingError;
      by destruct (ExecContext c _ d) as [[?|] ?] end.
  - match goal with |- context [ExecContext ?c (update_where_id ?f ?i) ?d] => idtac
    | |- context [ExecContext ?c (sqlUpdateClientID ?a ?b ?i) ?d] =>
      unfold sqlUpdateClientID end.
    match goal with |- context [ExecContext ?c (update_where_id ?f ?i) ?d] =>
      pose proof (Hone f i ltac:(done) c) as E;
      by destruct (ExecContext c _ d) as [[?|] ?] end.
  - unfold sqlUpdateHandshakeError.
    match goal with |- context [ExecContext ?c (update_where_id ?f ?i) ?d] =>
      pose proof (Hone f i ltac:(done) c) as E;
      by destruct (ExecContext c _ d) as [[?|] ?] end.
  - destruct (MarkTakenHandshakeCandidates_table db ctx now ids) as [->| ->];
      [done|]. by apply Hmany.
  - destruct (TakeHandshakeCandidates_table_cases db ctx nowFind1 nowFind2 nowMark
                minUnusedOKDuration minUnusedErrDuration maxHandshakeTries
                transientErr limit) as [->|(ids & Hf & ->)]; [done|].
    rewrite Hf in Hid. by apply Hmany.
  - unfold sqlUpdateForkCompatibility.
    match goal with |- context [ExecContext ?c (update_where_id ?f ?i) ?d] =>
      pose proof (Hone f i ltac:(done) c) as E;
      by destruct (ExecContext c _ d) as [[?|] ?] end.
  - unfold sqlUpdateNeighborBucketKeys.
    match goal with |- context [ExecContext ?c (update_where_id ?f ?i) ?d] =>
      pose proof (Hone f i ltac:(done) c) as E;
      by destruct (ExecContext c _ d) as [[?|] ?] end.
  - destruct (MarkTakenNodes_table db ctx now ids) as [->| ->]; [done|].
    by apply Hmany.
  - destruct (TakeCandidates_table_cases db ctx nowFind nowMark minUnusedDuration
                maxPingTries maxHandshakeTries transientHandshakeErr limit)
      as [->|(ids & Hf & ->)]; [done|].
    rewrite Hf in Hid. by apply Hmany.
Qed.

Lemma untouched_records_unchanged_witness :
  exec_op example_IP_String (OpTakeCandidates (20 * second) (20 * second)
                               (10 * second) 3 3 "timeout" 5)
    no_fault example_db !! "b" = example_db !! "b".
Proof.
  apply (untouched_records_unchanged example_IP_String).
  vm_compute. intros H. inversion H as [|? ? ? H']; inversion H'.
Defined.

(** ** Handshake outcomes *)

Lemma UpdateHandshakeError_lookup db ctx now id e :
  ctx_exec ctx = None →
  (UpdateHandshakeError db ctx now id e).2 !! id
  = (λ r, set_handshake (client_id r) (Some e) (handshake_try r + 1)
            (Some (Unix now)) r) <$> db !! id.
Proof.
  intros Hctx. exec_ok Hctx. simpl. unfold sqlUpdateHandshakeError.
  apply update_where_id_lookup.
Qed.

(** The errors reported for one id, one after the other. *)
Lemma UpdateHandshakeError_fold db ctx id r (reports : list (GoTime * string)) :
  ctx_exec ctx = None →
  db !! id = Some r →
  ∃ r', foldl (λ d report, (UpdateHandshakeError d ctx report.1 id report.2).2)
          db reports !! id = Some r'
        ∧ handshake_try r' = handshake_try r + Z.of_nat (length reports)
        ∧ client_id r' = client_id r.
Proof.
  intros Hctx. revert db r.
  induction reports as [|[t e] reports IH]; intros db r Hr; simpl.
  - exists r. split; [done|]. split; [lia|done].
  - destruct (IH (UpdateHandshakeError db ctx t id e).2
                (set_handshake (client_id r) (Some e) (handshake_try r + 1)
                   (Some (Unix t)) r)) as (r' & Hr' & Htry & Hcid).
    { by rewrite UpdateHandshakeError_lookup, Hr. }
    exists r'. split; [done|]. simpl in *. split; [lia|done].
Qed.

(** X11. For a record that exists, after any number of
    [UpdateHandshakeError] calls followed by one more at [now],
    [FindHandshakeLastTry] reports an error, the try count the record had
    plus the number of calls, and the second of the last call, as long as
    that count is within [int32]; beyond [int32] it fails although the
    record exists.  [UpdateClientID] is not needed in between: the count
    only grows. *)
Theorem handshake_errors_add_up (db : Table) (ctx ctx' : Context) (id : NodeID)
    (r : Node) (reports : list (GoTime * string)) (now : GoTime) (tag : string) :
  db !! id = Some r →
  ctx_exec ctx = None →
  ctx_query ctx' = None →
  0 <= handshake_try r →
  (handshake_try r + Z.of_nat (length reports) + 1 <= int32_max →
   FindHandshakeLastTry
     (foldl (λ d report, (UpdateHandshakeError d ctx report.1 id report.2).2)
        db (reports ++ [(now, tag)])) ctx' id
   = Ok (Some {| hasError := true;
                 tryCount := handshake_try r + Z.of_nat (length reports) + 1;
                 lastUpdated := time_Unix (Unix now) |}))
  ∧ (int32_max < handshake_try r + Z.of_nat (length reports) + 1 →
     ∃ e, FindHandshakeLastTry
            (foldl (λ d report, (UpdateHandshakeError d ctx report.1 id report.2).2)
               db (reports ++ [(now, tag)])) ctx' id
          = Err e).
Proof.
  intros Hr Hctx Hq Hnonneg.
  destruct (UpdateHandshakeError_fold db ctx id r reports Hctx Hr)
    as (r' & Hr' & Htry & _).
  rewrite foldl_app. simpl.
  unfold FindHandshakeLastTry, QueryRowContext, sqlFindHandshakeLastTry.
  rewrite Hq, UpdateHandshakeError_lookup, Hr' by done. simpl.
  rewrite Htry. unfold scan_NullInt32, int32_min, int32_max.
  split; intros Hrange.
  - destruct (Z.leb_spec (- 2 ^ 31)
                (handshake_try r + Z.of_nat (length reports) + 1)); [|lia].
    destruct (Z.leb_spec (handshake_try r + Z.of_nat (length reports) + 1)
                (2 ^ 31 - 1)); [|unfold int32_max in Hrange; lia].
    simpl. do 3 f_equal. unfold to_uint. apply Z.mod_small. lia.
  - destruct (Z.leb_spec (handshake_try r + Z.of_nat (length reports) + 1)
                (2 ^ 31 - 1)); [unfold int32_max in Hrange; lia|].
    rewrite andb_false_r. eauto.
Qed.

Lemma handshake_errors_add_up_witness :
  FindHandshakeLastTry
    (foldl (λ d report, (UpdateHandshakeError d no_fault report.1 "a" report.2).2)
       example_db ([(3 * second, "timeout"); (4 * second, "timeout")]
                   ++ [(5 * second, "timeout")])) no_fault "a"
  = Ok (Some {| hasError := true; tryCount := 0 + Z.of_nat 2 + 1;
                lastUpdated := time_Unix (Unix (5 * second)) |}).
Proof.
  refine (proj1 (handshake_errors_add_up example_db no_fault no_fault "a"
                   example_node [(3 * second, "timeout"); (4 * second, "timeout")]
                   (5 * second) "timeout" eq_refl eq_refl eq_refl _) _).
  - simpl. lia.
  - unfold int32_max. simpl. lia.
Defined.

Lemma MarkTakenHandshakeCandidates_lookup db ctx now ids id :
  ctx_exec ctx = None →
  id ∈ ids →
  (MarkTakenHandshakeCandidates db ctx now ids).2 !! id
  = (λ r, set_handshake (client_id r) (Some "taken") (handshake_try r)
            (Some (Unix now)) r) <$> db !! id.
Proof.
  intros Hctx Hin.
  destruct (MarkTakenHandshakeCandidates_cases db ctx now ids)
    as [->|(e & _ & He & _)]; [|congruence].
  simpl. unfold sqlMarkTakenHandshakeCandidates.
  rewrite update_where_id_in_lookup. destruct (db !! id); simpl; [|done].
  by rewrite bool_decide_eq_true_2.
Qed.

(** X12. The Mark step of the handshake stage overwrites the error of the
    record with ['taken'].  A record above the try limit, which only the
    transient tag kept eligible, is therefore returned by neither finder
    once it is marked, at any time and for any duration, as long as the
    transient tag is not ['taken'] itself and no outcome is written. *)
Theorem taken_mark_drops_transient_bypass (db : Table) (ctx : Context)
    (now : GoTime) (ids : list NodeID) (id : NodeID) (r : Node)
    (maxHandshakeTries : Z) (transientErr : string) :
  db !! id = Some r →
  ctx_exec ctx = None →
  id ∈ ids →
  uint_fits maxHandshakeTries →
  maxHandshakeTries < handshake_try r →
  transientErr ≠ "taken" →
  (∀ ctx' now1 now2 okD errD limit,
     id ∉ ids_of (FindHandshakeCandidates
                    (MarkTakenHandshakeCandidates db ctx now ids).2 ctx'
                    now1 now2 okD errD maxHandshakeTries transientErr limit))
  ∧ (∀ ctx' now' d maxPingTries limit,
       id ∉ ids_of (FindCandidates
                      (MarkTakenHandshakeCandidates db ctx now ids).2 ctx'
                      now' d maxPingTries maxHandshakeTries transientErr limit)).
Proof.
  intros Hr Hctx Hin Hfits Hmax Htag.
  assert (Hrow : (MarkTakenHandshakeCandidates db ctx now ids).2 !! id
                 = Some (set_handshake (client_id r) (Some "taken")
                           (handshake_try r) (Some (Unix now)) r)).
  { by rewrite MarkTakenHandshakeCandidates_lookup, Hr. }
  assert (Hcond : sql_true (cond_handshake_try (bind_uint maxHandshakeTries)
                              transientErr
                              (set_handshake (client_id r) (Some "taken")
                                 (handshake_try r) (Some (Unix now)) r)) = false).
  { apply not_true_is_false. rewrite bind_uint_fits by done.
    rewrite cond_handshake_try_spec. unfold within_tries_or_transient. simpl.
    intros [?|[= ?]]; [lia|congruence]. }
  split; intros.
  - intros (r' & Hr' & Hw)%FindHandshakeCandidates_sound.
    rewrite Hrow in Hr'. injection Hr' as <-.
    unfold whereFindHandshakeCandidates in Hw. rewrite !sql_true_and in Hw.
    destruct Hw as [_ Hw]. congruence.
  - intros (r' & Hr' & Hw)%FindCandidates_sound.
    rewrite Hrow in Hr'. injection Hr' as <-.
    unfold whereFindCandidates in Hw. rewrite !sql_true_and in Hw.
    destruct Hw as [_ Hw]. congruence.
Qed.

Lemma taken_mark_drops_transient_bypass_witness :
  "a" ∉ ids_of (FindHandshakeCandidates
                  (MarkTakenHandshakeCandidates
                     (<["a" := set_handshake None (Some "timeout") 5 (Some 9)
                                 example_node]> example_db)
                     no_fault (20 * second) ["a"]).2 no_fault
                  (1000 * second) (1000 * second) (10 * second) (10 * second)
                  3 "timeout" 10).
Proof.
  refine (proj1 (taken_mark_drops_transient_bypass
                   (<["a" := set_handshake None (Some "timeout") 5 (Some 9)
                               example_node]> example_db)
                   no_fault (20 * second) ["a"] "a"
                   (set_handshake None (Some "timeout") 5 (Some 9) example_node)
                   3 "timeout" eq_refl eq_refl _ _ _ _)
            no_fault (1000 * second) (1000 * second) (10 * second) (10 * second) 10).
  - apply list_elem_of_singleton. reflexivity.
  - unfold uint_fits, int64_max. lia.
  - simpl. lia.
  - discriminate.
Defined.

(** ** Statistics *)

Lemma exec_op_dom IP_String op ctx (db : Table) :
  creates op ctx db = false → dom (exec_op IP_String op ctx db) = dom db.
Proof.
  destruct op; simpl; intros Hc.
  - unfold UpsertNodeAddr, ExecContext.
    destruct (ctx_exec ctx) as [e|] eqn:He; simpl; [done|].
    unfold sqlUpsertNodeAddr. destruct (db !! id) as [r|] eqn:Hr.
    + rewrite dom_insert_L.
      assert (Hin : id ∈ dom db) by (apply elem_of_dom; eauto).
      apply set_eq. intros k. rewrite elem_of_union, elem_of_singleton.
      split; [intros [->|?]; done | auto].
    + rewrite bool_decide_eq_true_2 in Hc by done. done.
  - apply (single_row_updates_dom db ctx 0 id).
  - apply (single_row_updates_dom db ctx 0 id).
  - apply (single_row_updates_dom db ctx now id).
  - apply (single_row_updates_dom db ctx now id).
  - apply MarkTakenHandshakeCandidates_dom.
  - destruct (TakeHandshakeCandidates_table_cases db ctx nowFind1 nowFind2 nowMark
                minUnusedOKDuration minUnusedErrDuration maxHandshakeTries
                transientErr limit) as [->|(ids & _ & ->)]; [done|].
    apply update_where_id_in_dom.
  - apply (single_row_updates_dom db ctx now id).
  - apply (single_row_updates_dom db ctx 0 id).
  - apply MarkTakenNodes_dom.
  - destruct (TakeCandidates_table_cases db ctx nowFind nowMark minUnusedDuration
                maxPingTries maxHandshakeTries transientHandshakeErr limit)
      as [->|(ids & _ & ->)]; [done|].
    apply update_where_id_in_dom.
Qed.

(** X13. [CountNodes] after a call of a writing method is [CountNodes]
    before it, plus one exactly when the call is an [UpsertNodeAddr] that
    goes through for an id without record: no other call adds a record and
    none removes one. *)
Theorem CountNodes_after_call (IP_String : list byte → string) (op : Op)
    (ctx ctxq : Context) (db : Table) :
  ctx_query ctxq = None →
  ∃ n, CountNodes db ctxq = Ok n
       ∧ 0 <= n
       ∧ CountNodes (exec_op IP_String op ctx db) ctxq
         = Ok (n + if creates op ctx db then 1 else 0).
Proof.
  intros Hq. unfold CountNodes, QueryContext, sqlCountNodes. rewrite Hq.
  eexists. split; [done|]. split; [lia|]. f_equal.
  destruct (creates op ctx db) eqn:Hc.
  - destruct op; try discriminate. simpl in *.
    apply andb_true_iff in Hc as [Hnone Hexec].
    apply bool_decide_eq_true in Hnone, Hexec.
    unfold UpsertNodeAddr. rewrite ExecContext_ok by done. simpl.
    unfold sqlUpsertNodeAddr. rewrite Hnone.
    rewrite map_size_insert_None by done. lia.
  - rewrite <- !(size_dom (D := gset string)), exec_op_dom by done. lia.
Qed.

Lemma CountNodes_after_call_witness :
  ∃ n, CountNodes example_db no_fault = Ok n
       ∧ 0 <= n
       ∧ CountNodes
           (exec_op example_IP_String
              (OpUpsertNodeAddr (20 * second) "b" example_addr) no_fault example_db)
           no_fault
         = Ok (n + if creates (OpUpsertNodeAddr (20 * second) "b" example_addr)
                       no_fault example_db then 1 else 0).
Proof.
  exact (CountNodes_after_call example_IP_String
           (OpUpsertNodeAddr (20 * second) "b" example_addr)
           no_fault no_fault example_db eq_refl).
Defined.

Lemma length_remove_dups_le {A} `{EqDecision A} (l : list A) :
  (length (remove_dups l) ≤ length l)%nat.
Proof.
  induction l as [|x l IH]; simpl; [done|].
  destruct (decide_rel _ x l); simpl; lia.
Qed.

Lemma length_omap_le {A B} (f : A → option B) (l : list A) :
  (length (omap f l) ≤ length l)%nat.
Proof.
  induction l as [|x l IH]; csimpl; [done|].
  destruct (f x); csimpl; lia.
Qed.

Lemma update_where_id_insert f id (t : Table) r :
  t !! id = Some r → update_where_id f id t = <[id := f r]> (delete id t).
Proof.
  intros Hr. apply map_eq. intros k. destruct (decide (id = k)) as [<-|Hne].
  - by rewrite update_where_id_lookup, Hr, lookup_insert_eq.
  - by rewrite update_where_id_lookup_ne, lookup_insert_ne, lookup_delete_ne.
Qed.

Lemma count_compatible_split (t : Table) id r :
  t !! id = Some r →
  sqlCountCompatibleNodes t
  = sqlCountCompatibleNodes (delete id t)
    + if sql_true (cond_compat_fork r) then 1 else 0.
Proof.
  intros Hr. unfold sqlCountCompatibleNodes.
  rewrite <- (map_to_list_delete t id r Hr), filter_cons. simpl.
  destruct (decide (sql_true (cond_compat_fork r))) as [Hc|Hc].
  - apply Is_true_true in Hc. rewrite Hc. simpl length. lia.
  - apply Is_true_false in Hc. rewrite Hc. lia.
Qed.

(** X14. [CountCompatibleNodes] and [CountIPs] never exceed [CountNodes];
    and [UpdateForkCompatibility] on a record that exists moves
    [CountCompatibleNodes] by that record alone: down by one when the record
    counted and becomes incompatible, up by one when it did not count and
    becomes compatible, not at all otherwise. *)
Theorem compatible_count_follows_flag (db : Table) (ctx ctxq : Context) (now : GoTime)
    (id : NodeID) (r : Node) (isCompatFork : bool) :
  db !! id = Some r →
  ctx_exec ctx = None →
  ctx_query ctxq = None →
  ∃ nodes compatible ips,
    CountNodes db ctxq = Ok nodes
    ∧ CountCompatibleNodes db ctxq = Ok compatible
    ∧ CountIPs db ctxq = Ok ips
    ∧ 0 <= compatible <= nodes
    ∧ 0 <= ips <= nodes
    ∧ CountCompatibleNodes (UpdateForkCompatibility db ctx now id isCompatFork).2 ctxq
      = Ok (compatible
            - (if sql_true (cond_compat_fork r) then 1 else 0)
            + (if isCompatFork then 1 else 0)).
Proof.
  intros Hr Hctx Hq.
  unfold CountNodes, CountCompatibleNodes, CountIPs, QueryContext. rewrite Hq.
  do 3 eexists. do 3 (split; [done|]).
  split; [|split].
  - unfold sqlCountCompatibleNodes, sqlCountNodes.
    rewrite <- length_map_to_list.
    pose proof (length_filter (λ kr : string * Node, sql_true (cond_compat_fork kr.2))
                  (map_to_list db)). lia.
  - unfold sqlCountIPs, sqlCountNodes. rewrite <- length_map_to_list.
    pose proof (length_remove_dups_le
                  (omap (λ kr : string * Node, ip kr.2) (map_to_list db))).
    pose proof (length_omap_le (λ kr : string * Node, ip kr.2) (map_to_list db)).
    lia.
  - exec_ok Hctx. simpl. f_equal. unfold sqlUpdateForkCompatibility.
    rewrite (update_where_id_insert _ id db r Hr).
    rewrite (count_compatible_split db id r Hr).
    rewrite (count_compatible_split (<[id := _]> (delete id db)) id
               (set_compat_fork (Some (sql_of_bool isCompatFork)) (Some (Unix now)) r))
      by apply lookup_insert_eq.
    rewrite delete_insert_eq, delete_delete_eq.
    destruct isCompatFork; simpl; lia.
Qed.

Lemma compatible_count_follows_flag_witness :
  CountCompatibleNodes
    (UpdateForkCompatibility example_db no_fault (20 * second) "a" false).2 no_fault
  = Ok 0.
Proof.
  destruct (compatible_count_follows_flag example_db no_fault no_fault (20 * second)
              "a" example_node false eq_refl eq_refl eq_refl)
    as (nodes & compatible & ips & _ & Hc & _ & _ & _ & H).
  rewrite H. injection Hc as <-. vm_compute. reflexivity.
Defined.

Lemma foldl_count {A} (l : list A) (n : Z) :
  foldl (λ st _, st + 1) n l = n + Z.of_nat (length l).
Proof.
  revert n. induction l as [|x l IH]; intros n; simpl; [lia|].
  rewrite IH. lia.
Qed.

Lemma foldl_collect {A} (l acc : list A) :
  foldl (λ st x, x :: st) acc l = (reverse l ++ acc)%list.
Proof.
  revert acc. induction l as [|x l IH]; intros acc; simpl; [done|].
  by rewrite IH, reverse_cons, <- app_assoc.
Qed.

(** X15. When the query goes through, [EnumerateClientIDs] calls the
    callback once per record, with the client id of the record or nil: a
    callback that counts ends at [CountNodes], and a callback that collects
    ends with the client ids of the records and no others.  When the cursor
    fails after [read] rows the callback was called for those rows only and
    the error is returned. *)
Theorem EnumerateClientIDs_once_per_record (db : Table) (ctx : Context) (read : nat) :
  ctx_query ctx = None →
  (ctx_rows ctx = None →
   EnumerateClientIDs db ctx read (λ _ n, n + 1) 0 = (None, Z.of_nat (size db))
   ∧ Ok (EnumerateClientIDs db ctx read (λ _ n, n + 1) 0).2 = CountNodes db ctx
   ∧ ∃ l, EnumerateClientIDs db ctx read (λ c st, c :: st) [] = (None, l)
          ∧ ∀ c, c ∈ l ↔ ∃ id r, db !! id = Some r ∧ client_id r = c)
  ∧ (∀ e, ctx_rows ctx = Some e →
       EnumerateClientIDs db ctx read (λ _ n, n + 1) 0
       = (Some (wrap_err "EnumerateClientIDs failed to iterate" e),
          Z.of_nat (read `min` size db))).
Proof.
  intros Hq. unfold EnumerateClientIDs, CountNodes, QueryContext. rewrite Hq.
  split.
  - intros ->. rewrite foldl_count, foldl_collect.
    unfold sqlEnumerateClientIDs, sqlCountNodes.
    rewrite length_fmap, length_map_to_list. simpl.
    split; [done|]. split; [done|]. eexists. split; [done|].
    intros c. rewrite app_nil_r, elem_of_reverse, list_elem_of_fmap. split.
    + intros ([id r] & -> & Hin). apply elem_of_map_to_list in Hin. eauto.
    + intros (id & r & Hr & <-). exists (id, r). split; [done|].
      by apply elem_of_map_to_list.
  - intros e ->. rewrite foldl_count. unfold sqlEnumerateClientIDs.
    by rewrite length_take, length_fmap, length_map_to_list.
Qed.

Lemma EnumerateClientIDs_once_per_record_witness :
  EnumerateClientIDs
    (run_ops example_IP_String example_history ∅) no_fault 0 (λ _ n, n + 1) 0
  = (None, Z.of_nat (size (run_ops example_IP_String example_history ∅))).
Proof.
  exact (proj1 (proj1 (EnumerateClientIDs_once_per_record
                         (run_ops example_IP_String example_history ∅)
                         no_fault 0 eq_refl) eq_refl)).
Defined.

(** ** The conflict classifier *)

Lemma HasPrefix_other_byte (c p : ascii) (s prefix : string) :
  Ascii.eqb c p = false → HasPrefix (String c s) (String p prefix) = false.
Proof. intros H. simpl. by rewrite H. Qed.

(** A text in front that holds no ['S'] neither hides nor adds an
    occurrence of a word that starts with ['S']. *)
Lemma Contains_app_front (front s : string) (p : ascii) (word : string) :
  contains_byte front p = false →
  Contains (front +:+ s) (String p word) = Contains s (String p word).
Proof.
  induction front as [|c front IH]; [done|].
  cbn [contains_byte]. intros H. apply orb_false_iff in H as [Hc Hfront].
  change (String c front +:+ s) with (String c (front +:+ s)).
  cbn [Contains]. rewrite HasPrefix_other_byte by done. simpl. by apply IH.
Qed.

Lemma Contains_wrap_err (pfx e : string) :
  contains_byte pfx "S" = false →
  Contains (wrap_err pfx e) "SQLITE_BUSY" = Contains e "SQLITE_BUSY".
Proof.
  intros H. unfold wrap_err.
  rewrite (Contains_app_front pfx) by done.
  by rewrite (Contains_app_front ": ").
Qed.

Lemma FindCandidates_Err db ctx now d maxPing maxTries tag limit e' :
  FindCandidates db ctx now d maxPing maxTries tag limit = Err e' →
  ∃ e, (ctx_query ctx = Some e ∨ ctx_rows ctx = Some e)
       ∧ Contains e' "SQLITE_BUSY" = Contains e "SQLITE_BUSY".
Proof.
  unfold FindCandidates, QueryContext.
  destruct (ctx_query ctx) as [e|]; simpl.
  - intros [= <-]. exists e. split; [auto|]. by apply Contains_wrap_err.
  - destruct (ctx_rows ctx) as [e|]; [|done].
    intros [= <-]. exists e. split; [auto|]. by apply Contains_wrap_err.
Qed.

Lemma FindHandshakeCandidates_Err db ctx now1 now2 okD errD maxTries tag limit e' :
  FindHandshakeCandidates db ctx now1 now2 okD errD maxTries tag limit = Err e' →
  ∃ e, (ctx_query ctx = Some e ∨ ctx_rows ctx = Some e)
       ∧ Contains e' "SQLITE_BUSY" = Contains e "SQLITE_BUSY".
Proof.
  unfold FindHandshakeCandidates, QueryContext.
  destruct (ctx_query ctx) as [e|]; simpl.
  - intros [= <-]. exists e. split; [auto|]. by apply Contains_wrap_err.
  - destruct (ctx_rows ctx) as [e|]; [|done].
    intros [= <-]. exists e. split; [auto|]. by apply Contains_wrap_err.
Qed.

(** X16. The error that [TakeCandidates] or [TakeHandshakeCandidates]
    returns is the error of the database call that failed, wrapped; and
    [IsConflictError] says of the returned error what it says of the error
    of that call.  The texts that the methods put in front do not hide a
    [SQLITE_BUSY] and do not make one up. *)
Theorem Take_conflict_is_the_drivers (db : Table) (ctx : Context) :
  (∀ nowFind nowMark d maxPing maxTries tag limit e',
     (TakeCandidates db ctx nowFind nowMark d maxPing maxTries tag limit).1 = Err e' →
     ∃ e, (ctx_begin ctx = Some e ∨ ctx_query ctx = Some e ∨ ctx_rows ctx = Some e
           ∨ ctx_exec ctx = Some e ∨ ctx_commit ctx = Some e)
          ∧ IsConflictError (Some e') = IsConflictError (Some e))
  ∧ (∀ nowFind1 nowFind2 nowMark okD errD maxTries tag limit e',
       (TakeHandshakeCandidates db ctx nowFind1 nowFind2 nowMark okD errD maxTries
          tag limit).1 = Err e' →
       ∃ e, (ctx_begin ctx = Some e ∨ ctx_query ctx = Some e ∨ ctx_rows ctx = Some e
             ∨ ctx_exec ctx = Some e ∨ ctx_commit ctx = Some e)
            ∧ IsConflictError (Some e') = IsConflictError (Some e)).
Proof.
  split; intros.
  - destruct (TakeCandidates_cases db ctx nowFind nowMark d maxPing maxTries tag limit)
      as [(e&?&E)|[(e&Hf&E)|[(?&e&?&?&?&E)|[(?&e&?&?&E)|(?&?&E)]]]];
      rewrite E in *; simpl in *; simplify_eq.
    + exists e. split; [auto|]. by apply Contains_wrap_err.
    + apply FindCandidates_Err in Hf as (e0 & [?|?] & ?); exists e0; auto.
    + exists e. split; [auto|]. by apply Contains_wrap_err.
    + exists e. split; [auto 10|]. by apply Contains_wrap_err.
  - destruct (TakeHandshakeCandidates_cases db ctx nowFind1 nowFind2 nowMark okD errD
                maxTries tag limit)
      as [(e&?&E)|[(e&Hf&E)|[(?&e&?&?&?&E)|[(?&e&?&?&E)|(?&?&E)]]]];
      rewrite E in *; simpl in *; simplify_eq.
    + exists e. split; [auto|]. by apply Contains_wrap_err.
    + apply FindHandshakeCandidates_Err in Hf as (e0 & [?|?] & ?); exists e0; auto.
    + exists e. split; [auto|]. by apply Contains_wrap_err.
    + exists e. split; [auto 10|]. by apply Contains_wrap_err.
Qed.

(** A locked database makes [TakeCandidates] fail with an error that the
    classifier recognizes. *)
Lemma Take_conflict_is_the_drivers_witness :
  ∃ e', (TakeCandidates example_db ctx_busy (20 * second) (20 * second)
           (10 * second) 3 3 "timeout" 5).1 = Err e'
        ∧ IsConflictError (Some e') = true.
Proof.
  eexists. split; [vm_compute; reflexivity|].
  destruct (proj1 (Take_conflict_is_the_drivers example_db ctx_busy)
              (20 * second) (20 * second) (10 * second) 3 3 "timeout" 5 _
              ltac:(vm_compute; reflexivity))
    as (e & [H|[H|[H|[H|H]]]] & ->); try discriminate H.
  injection H as <-. vm_compute. reflexivity.
Defined.

(** ** Stored keys and stored addresses, read first *)

Lemma Split_cons (s : string) (sep : ascii) :
  ∃ piece pieces, Split s sep = piece :: pieces.
Proof.
  induction s as [|c s (piece & pieces & IH)]; simpl; [eauto|].
  destruct (Ascii.eqb c sep); [eauto|]. rewrite IH. eauto.
Qed.

Lemma Join_cons_byte (c : ascii) (piece : string) (pieces : list string) (sep : string) :
  Join (String c piece :: pieces) sep = String c (Join (piece :: pieces) sep).
Proof. by destruct pieces. Qed.

Lemma Join_Split (s : string) : Join (Split s ",") "," = s.
Proof.
  induction s as [|c s IH]; [done|]. simpl.
  destruct (Split_cons s ",") as (piece & pieces & Hs). rewrite Hs in *.
  destruct (Ascii.eqb_spec c ",") as [->|Hne].
  - change (Join ("" :: piece :: pieces) ",")
      with (String "," (Join (piece :: pieces) ",")).
    by rewrite IH.
  - by rewrite Join_cons_byte, IH.
Qed.

(** X17. Whatever text is stored as the neighbor keys of a record,
    [FindNeighborBucketKeys] returns a list that is not empty, and
    [UpdateNeighborBucketKeys] with that list stores the same text again:
    writing back what was read changes nothing. *)
Theorem neighbor_keys_write_back (db : Table) (ctx ctx' : Context) (id : NodeID)
    (r : Node) (keysStr : string) :
  db !! id = Some r →
  neighbor_keys r = Some keysStr →
  ctx_query ctx' = None →
  ctx_exec ctx = None →
  ∃ keys,
    FindNeighborBucketKeys db ctx' id = Ok (Some keys)
    ∧ keys ≠ []
    ∧ Join keys "," = keysStr
    ∧ UpdateNeighborBucketKeys db ctx id keys = (None, db).
Proof.
  intros Hr Hkeys Hq Hctx. exists (Split keysStr ",").
  unfold FindNeighborBucketKeys, QueryRowContext, sqlFindNeighborBucketKeys.
  rewrite Hq, Hr. simpl. rewrite Hkeys. split; [done|].
  split; [destruct (Split_cons keysStr ",") as (? & ? & ->); done|].
  split; [apply Join_Split|].
  rewrite (UpdateNeighborBucketKeys_ok db ctx id _ r Hr Hctx), Join_Split.
  f_equal. apply insert_id. rewrite Hr. f_equal.
  destruct r; simpl in *. by subst.
Qed.

Lemma neighbor_keys_write_back_witness :
  ∃ keys,
    FindNeighborBucketKeys
      (<["a" := set_neighbor_keys (Some "k1,,k2") example_node]> example_db)
      no_fault "a" = Ok (Some keys)
    ∧ keys ≠ []
    ∧ Join keys "," = "k1,,k2"
    ∧ UpdateNeighborBucketKeys
        (<["a" := set_neighbor_keys (Some "k1,,k2") example_node]> example_db)
        no_fault "a" keys
      = (None, <["a" := set_neighbor_keys (Some "k1,,k2") example_node]> example_db).
Proof.
  exact (neighbor_keys_write_back
           (<["a" := set_neighbor_keys (Some "k1,,k2") example_node]> example_db)
           no_fault no_fault "a" (set_neighbor_keys (Some "k1,,k2") example_node)
           "k1,,k2" eq_refl eq_refl eq_refl eq_refl).
Defined.

(** X18. [UpsertNodeAddr] on a record that exists replaces its address and
    nothing else: the counters, the fork flag, the handshake columns, the
    neighbor keys and [taken_last] are as before, and so is the value of the
    condition of either finder on the record, for all arguments. *)
Theorem UpsertNodeAddr_keeps_history (IP_String : list byte → string) (db : Table)
    (ctx : Context) (now : GoTime) (id : NodeID) (addr : NodeAddr) (r : Node) :
  db !! id = Some r →
  ∃ r', (UpsertNodeAddr IP_String db ctx now id addr).2 !! id = Some r'
        ∧ ping_try r' = ping_try r
        ∧ compat_fork r' = compat_fork r
        ∧ compat_fork_updated r' = compat_fork_updated r
        ∧ client_id r' = client_id r
        ∧ handshake_err r' = handshake_err r
        ∧ handshake_try r' = handshake_try r
        ∧ handshake_updated r' = handshake_updated r
        ∧ neighbor_keys r' = neighbor_keys r
        ∧ taken_last r' = taken_last r
        ∧ (∀ before maxPing maxTries tag,
             whereFindCandidates before maxPing maxTries tag r'
             = whereFindCandidates before maxPing maxTries tag r)
        ∧ (∀ okBefore errBefore maxTries tag,
             whereFindHandshakeCandidates okBefore errBefore maxTries tag r'
             = whereFindHandshakeCandidates okBefore errBefore maxTries tag r).
Proof.
  intros Hr. unfold UpsertNodeAddr.
  match goal with |- context [ExecContext ?c ?s ?d] =>
    destruct (ExecContext_table c s d) as [E|E];
    destruct (ExecContext c s d) as [[?|] ?]; simpl in *; subst end.
  1, 2: exists r; repeat split; done.
  all: unfold sqlUpsertNodeAddr; rewrite Hr, lookup_insert_eq;
    eexists; split; [reflexivity|]; repeat split; done.
Qed.

Lemma UpsertNodeAddr_keeps_history_witness :
  ∃ r', (UpsertNodeAddr example_IP_String
           (<["a" := set_ping_try 4 example_node]> example_db) no_fault
           (20 * second) "a" example_addr).2 !! "a" = Some r'
        ∧ ping_try r' = 4.
Proof.
  destruct (UpsertNodeAddr_keeps_history example_IP_String
              (<["a" := set_ping_try 4 example_node]> example_db) no_fault
              (20 * second) "a" example_addr (set_ping_try 4 example_node))
    as (r' & Hr' & Hping & _); [vm_compute; reflexivity|].
  exists r'. split; [exact Hr' | exact Hping].
Defined.

Section FindNodeAddrCases.
Variable ParseIP : string → IP_t.

End FindNodeAddrCases.

